(** * strava-webgl-viz: the track-overlap engine of [public/app.js]

    A shallow embedding of the frontend module: coordinate normalisation,
    the point-presence grid, per-segment overlap classification, the style
    mapping and buffer preparation, the view transform (zoom, pan, the
    shader's view matrix) and the click picker.

    JavaScript numbers are modelled in exact arithmetic as real numbers
    ([R]); [Math.floor] is [Zfloor], [Math.sqrt] is [sqrt], [Math.min] and
    [Math.max] are [Rmin] and [Rmax].  The module's globals are the fields
    of one record that every handler takes and returns. *)

From Stdlib Require Import Reals Lra Lia ZArith Ascii String.
From stdpp Require Import gmap strings list fin_maps pretty sorting.

Open Scope R_scope.

#[local] Set Warnings "-clear-no-such-hyp".

(** Comparisons of numbers are decidable in the model. *)
#[global] Instance R_eq_decision : EqDecision R := Req_dec_T.
#[global] Instance R_lt_decision (a b : R) : Decision (a < b) := Rlt_dec a b.
#[global] Instance R_le_decision (a b : R) : Decision (a <= b) := Rle_dec a b.

(** ** Configuration constants *)

Definition RGB : Type := (R * R * R)%type.

Definition NO_OVERLAP_TRACK_COLOR_RGB : RGB := (0, 0, 0).
Definition MAX_OVERLAP_TRACK_COLOR_RGB : RGB := (1, 0, 0).

Definition NON_OVERLAP_THICKNESS : R := 2.
Definition MIN_OVERLAP_THICKNESS_START : R := 4.
Definition MAX_OVERLAP_THICKNESS : R := 20.

Definition MIN_OVERLAPS_FOR_EFFECT_START : R := 2.
Definition MAX_OVERLAPS_FOR_FULL_EFFECT : R := 5.

Definition OVERLAP_PROXIMITY_ABSTRACT : R := 10.
Definition GLOBAL_SCALE : R := 50000.
Definition CLICK_SENSITIVITY_PIXELS : R := 10.

Definition GRID_CELL_SIZE : R := OVERLAP_PROXIMITY_ABSTRACT.

(** ** Data model *)

(** [{ lat: p[0], lon: p[1] }] *)
Module LatLon.
Record t := mk { lat : R; lon : R }.
End LatLon.

(** [{ x, y }] in abstract world units. *)
Module Point.
Record t := mk { x : R; y : R }.
End Point.

(** [{ p1, p2, overlapCount }] *)
Module Segment.
Record t := mk { p1 : Point.t; p2 : Point.t; overlapCount : nat }.
End Segment.

(** The objects pushed on [allTracksData]. *)
Module Track.
Record t := mk {
  id : Z;
  internalId : nat;
  type : string;
  translatedPoints : list Point.t;
  segmentsWithOverlap : list Segment.t
}.

Definition with_segments (segs : list Segment.t) (tr : t) : t :=
  mk (id tr) (internalId tr) (type tr) (translatedPoints tr) segs.
End Track.

(** An activity summary of the activity list; [summary_polyline] stands for
    [activity.map.summary_polyline] ([None] when [map] or the polyline is
    missing). *)
Module ActivityInfo.
Record t := mk {
  id : Z;
  name : string;
  type : string;
  start_date_local : string;
  distance : R;
  moving_time : R;
  elapsed_time : R;
  total_elevation_gain : R;
  summary_polyline : option string
}.
End ActivityInfo.

(** The values of [activityMetadata].  [date] keeps the activity's
    [start_date_local]; its locale formatting is display only. *)
Module TrackMeta.
Record t := mk {
  id : Z;
  name : string;
  type : string;
  date : string;
  distance : R;
  movingTime : R;
  elapsedTime : R;
  totalElevationGain : R
}.
End TrackMeta.

(** [{ activityInfo, latlngStream, timeStream, distStream }] *)
Module StreamData.
Record t := mk {
  activityInfo : ActivityInfo.t;
  latlngStream : list (R * R);
  timeStream : option (list R);
  distStream : option (list R)
}.
End StreamData.

Module ViewState.
Record t := mk {
  centerX : R;
  centerY : R;
  scale : R;
  panX : R;
  panY : R
}.
End ViewState.

(** [webGLTrackBuffers]: the flattened arrays. *)
Module Buffers.
Record t := mk {
  positions : list R;
  colors : list R;
  thicknesses : list R;
  indices : list nat;
  segmentTrackIds : list Z
}.

Definition empty : t := mk [] [] [] [] [].
End Buffers.

(** The globals of the module, and the canvas size read through [regl]. *)
Record AppState := mkAppState {
  allTracksData : list Track.t;
  activityMetadata : gmap Z TrackMeta.t;
  activityTypes : gset string;
  activeActivityFilters : gmap string bool;
  pointPresenceGrid : gmap string (gset nat);
  viewState : ViewState.t;
  initialViewState : ViewState.t;
  isPanning : bool;
  webGLTrackBuffers : Buffers.t;
  canvasWidth : R;
  canvasHeight : R
}.

Definition set_allTracksData v (st : AppState) : AppState :=
  mkAppState v (activityMetadata st) (activityTypes st)
    (activeActivityFilters st) (pointPresenceGrid st) (viewState st)
    (initialViewState st) (isPanning st) (webGLTrackBuffers st)
    (canvasWidth st) (canvasHeight st).
Definition set_activityMetadata v (st : AppState) : AppState :=
  mkAppState (allTracksData st) v (activityTypes st)
    (activeActivityFilters st) (pointPresenceGrid st) (viewState st)
    (initialViewState st) (isPanning st) (webGLTrackBuffers st)
    (canvasWidth st) (canvasHeight st).
Definition set_activityTypes v (st : AppState) : AppState :=
  mkAppState (allTracksData st) (activityMetadata st) v
    (activeActivityFilters st) (pointPresenceGrid st) (viewState st)
    (initialViewState st) (isPanning st) (webGLTrackBuffers st)
    (canvasWidth st) (canvasHeight st).
Definition set_activeActivityFilters v (st : AppState) : AppState :=
  mkAppState (allTracksData st) (activityMetadata st) (activityTypes st)
    v (pointPresenceGrid st) (viewState st)
    (initialViewState st) (isPanning st) (webGLTrackBuffers st)
    (canvasWidth st) (canvasHeight st).
Definition set_pointPresenceGrid v (st : AppState) : AppState :=
  mkAppState (allTracksData st) (activityMetadata st) (activityTypes st)
    (activeActivityFilters st) v (viewState st)
    (initialViewState st) (isPanning st) (webGLTrackBuffers st)
    (canvasWidth st) (canvasHeight st).
Definition set_viewState v (st : AppState) : AppState :=
  mkAppState (allTracksData st) (activityMetadata st) (activityTypes st)
    (activeActivityFilters st) (pointPresenceGrid st) v
    (initialViewState st) (isPanning st) (webGLTrackBuffers st)
    (canvasWidth st) (canvasHeight st).
Definition set_initialViewState v (st : AppState) : AppState :=
  mkAppState (allTracksData st) (activityMetadata st) (activityTypes st)
    (activeActivityFilters st) (pointPresenceGrid st) (viewState st)
    v (isPanning st) (webGLTrackBuffers st)
    (canvasWidth st) (canvasHeight st).
Definition set_webGLTrackBuffers v (st : AppState) : AppState :=
  mkAppState (allTracksData st) (activityMetadata st) (activityTypes st)
    (activeActivityFilters st) (pointPresenceGrid st) (viewState st)
    (initialViewState st) (isPanning st) v
    (canvasWidth st) (canvasHeight st).

(** ** Small JavaScript helpers *)

(** [Array.prototype.forEach] with the element index, threading the state
    the callback mutates. *)
Fixpoint forEachFrom {A St : Type} (f : St → A → nat → St)
    (index : nat) (l : list A) (st : St) : St :=
  match l with
  | [] => st
  | a :: l' => forEachFrom f (S index) l' (f st a index)
  end.

Definition forEach {A St : Type} (f : St → A → nat → St) (l : list A)
    (st : St) : St :=
  forEachFrom f 0 l st.

(** [String.prototype.toLowerCase] on the ASCII letters. *)
Definition lowerAscii (c : ascii) : ascii :=
  let n := nat_of_ascii c in
  if (65 <=? n)%nat && (n <=? 90)%nat then ascii_of_nat (n + 32) else c.

Fixpoint toLowerCase (s : string) : string :=
  match s with
  | EmptyString => EmptyString
  | String c s' => String (lowerAscii c) (toLowerCase s')
  end.

(** ** Coordinate normaliser and point-presence grid ([processStravaData]) *)

(** [latlngStream.map(p => ({ lat: p[0], lon: p[1] }))] *)
Definition originalPointsOf (latlngStream : list (R * R)) : list LatLon.t :=
  map (λ p, LatLon.mk (fst p) (snd p)) latlngStream.

(** Translate to the origin and scale; the y axis is inverted. *)
Definition translateScale (firstPoint p : LatLon.t) : Point.t :=
  Point.mk ((LatLon.lon p - LatLon.lon firstPoint) * GLOBAL_SCALE)
           (- (LatLon.lat p - LatLon.lat firstPoint) * GLOBAL_SCALE).

Definition translatedScaledPointsOf (latlngStream : list (R * R)) : list Point.t :=
  let originalPoints := originalPointsOf latlngStream in
  match originalPoints with
  | [] => []
  | firstPoint :: _ => map (translateScale firstPoint) originalPoints
  end.

(** The key [`${gridX}_${gridY}`]. *)
Definition cellKey (gridX gridY : Z) : string :=
  pretty gridX +:+ "_" +:+ pretty gridY.

Definition gridCoord (v : R) : Z := Zfloor (v / GRID_CELL_SIZE).

(** [if (!grid.has(key)) grid.set(key, new Set()); grid.get(key).add(id)] *)
Definition gridAdd (key : string) (trackInternalId : nat)
    (grid : gmap string (gset nat)) : gmap string (gset nat) :=
  let grid' := match grid !! key with
               | Some _ => grid
               | None => <[key := ∅]> grid
               end in
  match grid' !! key with
  | Some s => <[key := s ∪ {[trackInternalId]}]> grid'
  | None => grid'
  end.

Definition gridAddPoint (trackInternalId : nat)
    (grid : gmap string (gset nat)) (tp : Point.t) : gmap string (gset nat) :=
  let gridX := gridCoord (Point.x tp) in
  let gridY := gridCoord (Point.y tp) in
  gridAdd (cellKey gridX gridY) trackInternalId grid.

Definition metadataOf (activityInfo : ActivityInfo.t) : TrackMeta.t :=
  TrackMeta.mk (ActivityInfo.id activityInfo)
    (ActivityInfo.name activityInfo)
    (toLowerCase (ActivityInfo.type activityInfo))
    (ActivityInfo.start_date_local activityInfo)
    (ActivityInfo.distance activityInfo)
    (ActivityInfo.moving_time activityInfo)
    (ActivityInfo.elapsed_time activityInfo)
    (ActivityInfo.total_elevation_gain activityInfo).

(** The track object built for one stream. *)
Definition trackForOverlap (entry : StreamData.t) (index : nat) : Track.t :=
  Track.mk (ActivityInfo.id (StreamData.activityInfo entry))
    index
    (toLowerCase (ActivityInfo.type (StreamData.activityInfo entry)))
    (translatedScaledPointsOf (StreamData.latlngStream entry))
    [].

(** The body of the [forEach] callback of [processStravaData]. *)
Definition processStream (st : AppState) (entry : StreamData.t) (index : nat)
    : AppState :=
  let latlngStream := StreamData.latlngStream entry in
  let activityInfo := StreamData.activityInfo entry in
  if (length latlngStream <? 2)%nat then st
  else
    let track := trackForOverlap entry index in
    let trackId := ActivityInfo.id activityInfo in
    let st := set_activityMetadata
                (<[trackId := metadataOf activityInfo]> (activityMetadata st)) st in
    let st := set_activityTypes
                (activityTypes st ∪ {[toLowerCase (ActivityInfo.type activityInfo)]}) st in
    let st := set_allTracksData (allTracksData st ++ [track]) st in
    set_pointPresenceGrid
      (fold_left (gridAddPoint (Track.internalId track))
         (Track.translatedPoints track) (pointPresenceGrid st)) st.

Definition processStravaData (streamDataArray : list StreamData.t)
    (st : AppState) : AppState :=
  forEach processStream streamDataArray st.

(** ** Overlap classifier *)

Definition vicinityOffsets : list Z := [-1; 0; 1]%Z.

(** The union of the id sets of the 3x3 block of cells around [gridX],
    [gridY], accumulated in the order of the two nested loops. *)
Definition uniqueTrackInternalIdsInVicinity (grid : gmap string (gset nat))
    (gridX gridY : Z) : gset nat :=
  fold_left (λ acc dx,
    fold_left (λ acc dy,
      match grid !! cellKey (gridX + dx) (gridY + dy) with
      | Some s => acc ∪ s
      | None => acc
      end) vicinityOffsets acc) vicinityOffsets ∅.

(** [currentTrackInternalId] is passed by the caller and unused: the
    exclusion of the current track is commented out in the source. *)
Definition getOverlapCountForPoint (grid : gmap string (gset nat))
    (abstractScaledPoint : Point.t) (currentTrackInternalId : nat) : nat :=
  let gridX := gridCoord (Point.x abstractScaledPoint) in
  let gridY := gridCoord (Point.y abstractScaledPoint) in
  size (uniqueTrackInternalIdsInVicinity grid gridX gridY).

Definition midpointOf (p1 p2 : Point.t) : Point.t :=
  Point.mk ((Point.x p1 + Point.x p2) / 2) ((Point.y p1 + Point.y p2) / 2).

(** The [for] loop over consecutive point pairs of one track. *)
Fixpoint segmentsOf (grid : gmap string (gset nat)) (internalId : nat)
    (points : list Point.t) : list Segment.t :=
  match points with
  | p1 :: ((p2 :: _) as rest) =>
      Segment.mk p1 p2 (getOverlapCountForPoint grid (midpointOf p1 p2) internalId)
      :: segmentsOf grid internalId rest
  | _ => []
  end.

Definition calculateTrackOverlaps (grid : gmap string (gset nat))
    (track : Track.t) : Track.t :=
  if (length (Track.translatedPoints track) <? 2)%nat
  then Track.with_segments [] track
  else Track.with_segments
         (segmentsOf grid (Track.internalId track) (Track.translatedPoints track))
         track.

Definition calculateAllSegmentOverlaps (st : AppState) : AppState :=
  set_allTracksData
    (map (calculateTrackOverlaps (pointPresenceGrid st)) (allTracksData st)) st.

(** ** Activity filters *)

(** Truthiness of [activeActivityFilters[type]]: a missing property is
    [undefined]. *)
Definition filterActive (filters : gmap string bool) (type : string) : bool :=
  match filters !! type with
  | Some b => b
  | None => false
  end.

(** The state part of [updateActivityToggles]: every known type without an
    entry gets [true]. *)
Definition defaultToVisible (filters : gmap string bool) (type : string)
    : gmap string bool :=
  match filters !! type with
  | Some _ => filters
  | None => <[type := true]> filters
  end.

Definition updateActivityToggles (st : AppState) : AppState :=
  set_activeActivityFilters
    (fold_left defaultToVisible (elements (activityTypes st))
       (activeActivityFilters st)) st.

(** ** Style mapper and buffer preparation ([prepareDataForWebGL]) *)

Definition thicknessRatioOf (overlapCount : nat) : R :=
  if Rlt_dec MIN_OVERLAPS_FOR_EFFECT_START MAX_OVERLAPS_FOR_FULL_EFFECT then
    Rmin 1 (Rmax 0
      ((INR overlapCount - MIN_OVERLAPS_FOR_EFFECT_START) /
       (MAX_OVERLAPS_FOR_FULL_EFFECT - MIN_OVERLAPS_FOR_EFFECT_START)))
  else if Rle_dec MAX_OVERLAPS_FOR_FULL_EFFECT (INR overlapCount) then 1
  else 0.

Definition segmentThickness (overlapCount : nat) : R :=
  if (overlapCount <=? 1)%nat then NON_OVERLAP_THICKNESS
  else
    let thickness :=
      MIN_OVERLAP_THICKNESS_START +
      thicknessRatioOf overlapCount *
        (MAX_OVERLAP_THICKNESS - MIN_OVERLAP_THICKNESS_START) in
    Rmin MAX_OVERLAP_THICKNESS (Rmax MIN_OVERLAP_THICKNESS_START thickness).

Definition colorFadeStartReferenceCount : R := 1.

Definition colorRatioOf (overlapCount : nat) : R :=
  if Rlt_dec colorFadeStartReferenceCount MAX_OVERLAPS_FOR_FULL_EFFECT then
    Rmin 1 (Rmax 0
      ((INR overlapCount - colorFadeStartReferenceCount) /
       (MAX_OVERLAPS_FOR_FULL_EFFECT - colorFadeStartReferenceCount)))
  else if Rle_dec MAX_OVERLAPS_FOR_FULL_EFFECT (INR overlapCount) then 1
  else 0.

Definition lerpChannel (from to ratio : R) : R := from + ratio * (to - from).

Definition segmentColorRGB (overlapCount : nat) : RGB :=
  if (overlapCount <=? 1)%nat then NO_OVERLAP_TRACK_COLOR_RGB
  else
    let colorRatio := colorRatioOf overlapCount in
    let '(r0, g0, b0) := NO_OVERLAP_TRACK_COLOR_RGB in
    let '(r1, g1, b1) := MAX_OVERLAP_TRACK_COLOR_RGB in
    (lerpChannel r0 r1 colorRatio,
     lerpChannel g0 g1 colorRatio,
     lerpChannel b0 b1 colorRatio).

Definition redChannel (c : RGB) : R := fst (fst c).

(** The pushes of one segment; the accumulator is the buffers and
    [currentIndex]. *)
Definition pushSegment (track : Track.t) (acc : Buffers.t * nat)
    (segment : Segment.t) : Buffers.t * nat :=
  let '(buf, currentIndex) := acc in
  let p1 := Segment.p1 segment in
  let p2 := Segment.p2 segment in
  let thickness := segmentThickness (Segment.overlapCount segment) in
  let '(r, g, b) := segmentColorRGB (Segment.overlapCount segment) in
  (Buffers.mk
     (Buffers.positions buf ++ [Point.x p1; Point.y p1; Point.x p2; Point.y p2])
     (Buffers.colors buf ++ [r; g; b; r; g; b])
     (Buffers.thicknesses buf ++ [thickness; thickness])
     (Buffers.indices buf ++ [currentIndex; (currentIndex + 1)%nat])
     (Buffers.segmentTrackIds buf ++ [Track.id track; Track.id track]),
   (currentIndex + 2)%nat).

Definition prepareTrack (filters : gmap string bool)
    (acc : Buffers.t * nat) (track : Track.t) : Buffers.t * nat :=
  if negb (filterActive filters (Track.type track)) then acc
  else fold_left (pushSegment track) (Track.segmentsWithOverlap track) acc.

Definition buildBuffers (filters : gmap string bool) (tracks : list Track.t)
    : Buffers.t :=
  fst (fold_left (prepareTrack filters) tracks (Buffers.empty, 0%nat)).

Definition prepareDataForWebGL (st : AppState) : AppState :=
  set_webGLTrackBuffers
    (buildBuffers (activeActivityFilters st) (allTracksData st)) st.

(** The [change] listener of a type's checkbox. *)
Definition onFilterChange (type : string) (checked : bool) (st : AppState)
    : AppState :=
  prepareDataForWebGL
    (set_activeActivityFilters (<[type := checked]> (activeActivityFilters st)) st).

(** ** View transform *)

(** *** The render path: the uniforms and vertex shader of [drawTracksCommand]

    Matrices are flat arrays of 16 numbers in column-major order, as regl
    passes them to the shader. *)

Definition Vec4 : Type := (R * R * R * R)%type.

Definition mat4At (m : list R) (col row : nat) : R := nth (col * 4 + row) m 0.

Definition mat4MulVec4 (m : list R) (v : Vec4) : Vec4 :=
  let '(v0, v1, v2, v3) := v in
  let rowOf (row : nat) :=
    mat4At m 0 row * v0 + mat4At m 1 row * v1 +
    mat4At m 2 row * v2 + mat4At m 3 row * v3 in
  (rowOf 0%nat, rowOf 1%nat, rowOf 2%nat, rowOf 3%nat).

(** The [projection] uniform: an orthographic projection of the pixel
    rectangle, top-left origin. *)
Definition projectionMatrix (viewportWidth viewportHeight : R) : list R :=
  let left := 0 in
  let right := viewportWidth in
  let bottom := viewportHeight in
  let top := 0 in
  let near := -1 in
  let far := 1 in
  [ 2 / (right - left); 0; 0; 0;
    0; 2 / (top - bottom); 0; 0;
    0; 0; -2 / (far - near); 0;
    - (right + left) / (right - left); - (top + bottom) / (top - bottom);
      - (far + near) / (far - near); 1 ].

(** The [view] uniform, as written in the source. *)
Definition viewMatrix (vs : ViewState.t) : list R :=
  let s := ViewState.scale vs in
  [ s; 0; 0; 0;
    0; s; 0; 0;
    0; 0; 1; 0;
    ViewState.panX vs * s; ViewState.panY vs * s; 0; 1 ].

(** [gl_Position = projection * view * vec4(position, 0.0, 1.0)] *)
Definition vertexShader (projection view : list R) (position : Point.t) : Vec4 :=
  mat4MulVec4 projection
    (mat4MulVec4 view (Point.x position, Point.y position, 0, 1)).

(** The canvas pixel (top-left origin) of a clip-space position: the
    perspective division and viewport transform of the GL pipeline. *)
Definition canvasPixelOf (viewportWidth viewportHeight : R) (clip : Vec4)
    : R * R :=
  let '(cx, cy, _, cw) := clip in
  ((cx / cw + 1) / 2 * viewportWidth, (1 - cy / cw) / 2 * viewportHeight).

(** Where the renderer draws a world point. *)
Definition worldToScreen (viewportWidth viewportHeight : R)
    (vs : ViewState.t) (p : Point.t) : R * R :=
  canvasPixelOf viewportWidth viewportHeight
    (vertexShader (projectionMatrix viewportWidth viewportHeight)
       (viewMatrix vs) p).

(** *** The interaction path *)

(** [(screen - pan) / scale], the conversion written out in the wheel and
    click handlers. *)
Definition screenToWorld (vs : ViewState.t) (sx sy : R) : Point.t :=
  Point.mk ((sx - ViewState.panX vs) / ViewState.scale vs)
           ((sy - ViewState.panY vs) / ViewState.scale vs).

(** The body of the [wheel] listener for a given [scaleAmount]. *)
Definition zoomAtPoint (scaleAmount mouseX mouseY : R) (vs : ViewState.t)
    : ViewState.t :=
  let worldXBeforeZoom := (mouseX - ViewState.panX vs) / ViewState.scale vs in
  let worldYBeforeZoom := (mouseY - ViewState.panY vs) / ViewState.scale vs in
  let scale := ViewState.scale vs * scaleAmount in
  let scale := Rmax 0.01 (Rmin scale 100) in
  ViewState.mk (ViewState.centerX vs) (ViewState.centerY vs) scale
    (mouseX - worldXBeforeZoom * scale)
    (mouseY - worldYBeforeZoom * scale).

Definition zoomFactor : R := 1.1.

Definition onWheel (deltaY mouseX mouseY : R) (st : AppState) : AppState :=
  let scaleAmount := if Rlt_dec deltaY 0 then zoomFactor else 1 / zoomFactor in
  set_viewState (zoomAtPoint scaleAmount mouseX mouseY (viewState st)) st.

(** The pan update of the [mousemove] listener while panning. *)
Definition panBy (dx dy : R) (vs : ViewState.t) : ViewState.t :=
  ViewState.mk (ViewState.centerX vs) (ViewState.centerY vs)
    (ViewState.scale vs) (ViewState.panX vs + dx) (ViewState.panY vs + dy).

(** The bounding box of all translated points, [None] while [hasPoints] is
    false; the fold starts from the first point instead of the infinities. *)
Definition extendBounds (acc : option (R * R * R * R)) (p : Point.t)
    : option (R * R * R * R) :=
  match acc with
  | None => Some (Point.x p, Point.x p, Point.y p, Point.y p)
  | Some (minX, maxX, minY, maxY) =>
      Some (Rmin minX (Point.x p), Rmax maxX (Point.x p),
            Rmin minY (Point.y p), Rmax maxY (Point.y p))
  end.

Definition dataBounds (tracks : list Track.t) : option (R * R * R * R) :=
  fold_left (λ acc track, fold_left extendBounds (Track.translatedPoints track) acc)
    tracks None.

(** The branch for a bounding box of zero width and height. *)
Definition centerSinglePoint (minX minY : R) (st : AppState) : AppState :=
  let vs0 := initialViewState st in
  let vs := ViewState.mk (ViewState.centerX vs0) (ViewState.centerY vs0)
              (ViewState.scale vs0)
              (canvasWidth st / 2 - minX * ViewState.scale vs0)
              (canvasHeight st / 2 - minY * ViewState.scale vs0) in
  set_initialViewState vs (set_viewState vs st).

Definition fitBounds (minX minY dataWidth dataHeight : R) (st : AppState)
    : AppState :=
  let padding := 50 in
  let canvasPaddedWidth := canvasWidth st - 2 * padding in
  let canvasPaddedHeight := canvasHeight st - 2 * padding in
  let scaleX := if Rlt_dec 0 dataWidth
                then canvasPaddedWidth / dataWidth else 1 in
  let scaleY := if Rlt_dec 0 dataHeight
                then canvasPaddedHeight / dataHeight else 1 in
  let scale := Rmin (Rmin scaleX scaleY) 5 in
  let scale := Rmax scale 0.01 in
  let dataCenterX := minX + dataWidth / 2 in
  let dataCenterY := minY + dataHeight / 2 in
  let vs0 := viewState st in
  let vs := ViewState.mk (ViewState.centerX vs0) (ViewState.centerY vs0)
              scale
              (canvasWidth st / 2 - dataCenterX * scale)
              (canvasHeight st / 2 - dataCenterY * scale) in
  set_initialViewState vs (set_viewState vs st).

Definition resetViewAndFitTracks (st : AppState) : AppState :=
  match allTracksData st with
  | [] => set_viewState (initialViewState st) st
  | _ =>
    match dataBounds (allTracksData st) with
    | None => set_viewState (initialViewState st) st
    | Some (minX, maxX, minY, maxY) =>
      let dataWidth := maxX - minX in
      let dataHeight := maxY - minY in
      if bool_decide (dataWidth = 0) && bool_decide (dataHeight = 0)
      then centerSinglePoint minX minY st
      else fitBounds minX minY dataWidth dataHeight st
    end
  end.

(** ** Picker *)

(** Division as the exact-arithmetic model has it: undefined on a zero
    divisor. *)
Definition checkedDiv (a b : R) : option R :=
  if Req_dec_T b 0 then None else Some (a / b).

Definition distancePointToSegment (p a b : Point.t) : option R :=
  let l2 := (Point.x a - Point.x b) ^ 2 + (Point.y a - Point.y b) ^ 2 in
  if Req_dec_T l2 0 then
    Some (sqrt ((Point.x p - Point.x a) ^ 2 + (Point.y p - Point.y a) ^ 2))
  else
    t ← checkedDiv
          ((Point.x p - Point.x a) * (Point.x b - Point.x a) +
           (Point.y p - Point.y a) * (Point.y b - Point.y a)) l2;
    let t := Rmax 0 (Rmin 1 t) in
    let projectionX := Point.x a + t * (Point.x b - Point.x a) in
    let projectionY := Point.y a + t * (Point.y b - Point.y a) in
    Some (sqrt ((Point.x p - projectionX) ^ 2 + (Point.y p - projectionY) ^ 2)).

(** [{ trackId, distance }]; [trackId] is [None] for [null] or [undefined],
    [distance] is [None] for [Infinity]. *)
Module BestMatch.
Record t := mk { trackId : option Z; distance : option R }.
Definition initial : t := mk None None.
End BestMatch.

(** The reads of one loop iteration at index [i]: both end points and the
    track id of the first vertex.  A read outside an array is [undefined]. *)
Definition readSegment (buf : Buffers.t) (i : nat)
    : option (Point.t * Point.t) * option Z :=
  let positions := Buffers.positions buf in
  let idx1 := Buffers.indices buf !! i in
  let idx2 := Buffers.indices buf !! (i + 1)%nat in
  (i1 ← idx1; i2 ← idx2;
   x1 ← positions !! (i1 * 2)%nat; y1 ← positions !! (i1 * 2 + 1)%nat;
   x2 ← positions !! (i2 * 2)%nat; y2 ← positions !! (i2 * 2 + 1)%nat;
   Some (Point.mk x1 y1, Point.mk x2 y2),
   i1 ← idx1; Buffers.segmentTrackIds buf !! i1).

(** [trackMeta && !activeActivityFilters[trackMeta.type]] *)
Definition filteredOut (metadata : gmap Z TrackMeta.t)
    (filters : gmap string bool) (segmentTrackId : option Z) : bool :=
  match segmentTrackId ≫= (λ tid, metadata !! tid) with
  | Some trackMeta => negb (filterActive filters (TrackMeta.type trackMeta))
  | None => false
  end.

Definition closerThan (dist : R) (bound : option R) : bool :=
  match bound with
  | Some d => bool_decide (dist < d)
  | None => true
  end.

(** One iteration of the loop.  A missing coordinate makes the distance
    [NaN], for which no comparison holds. *)
Definition pickStep (st : AppState) (click : Point.t) (sensitivityInWorld : R)
    (bestMatch : BestMatch.t) (i : nat) : BestMatch.t :=
  let '(ends, segmentTrackId) := readSegment (webGLTrackBuffers st) i in
  if filteredOut (activityMetadata st) (activeActivityFilters st) segmentTrackId
  then bestMatch
  else
    match ends ≫= (λ '(p1, p2), distancePointToSegment click p1 p2) with
    | None => bestMatch
    | Some dist =>
        if bool_decide (dist < sensitivityInWorld)
           && closerThan dist (BestMatch.distance bestMatch)
        then BestMatch.mk segmentTrackId (Some dist)
        else bestMatch
    end.

(** The values of [i] in [for (let i = 0; i < n; i += 2)]. *)
Definition loopIndices (n : nat) : list nat :=
  map (λ k, 2 * k)%nat (seq 0 (Nat.div2 (S n))).

(** The best match after the loop, for a click already converted to world
    coordinates. *)
Definition pickBestMatch (st : AppState) (click : Point.t)
    (sensitivityInWorld : R) : BestMatch.t :=
  fold_left (pickStep st click sensitivityInWorld)
    (loopIndices (length (Buffers.indices (webGLTrackBuffers st))))
    BestMatch.initial.

Definition pickAt (st : AppState) (clickX_screen clickY_screen : R)
    : BestMatch.t :=
  let click := screenToWorld (viewState st) clickX_screen clickY_screen in
  let sensitivityInWorld := CLICK_SENSITIVITY_PIXELS / ViewState.scale (viewState st) in
  pickBestMatch st click sensitivityInWorld.

Inductive PopupAction :=
  | ShowPopup (track : TrackMeta.t)
  | HidePopup
  | NoPopupChange.

(** [bestMatch.trackId] is tested for truthiness: the id [0] counts as no
    match. *)
Definition handleCanvasClickForPopup (clickX_screen clickY_screen : R)
    (st : AppState) : PopupAction :=
  if isPanning st then NoPopupChange
  else if (length (Buffers.positions (webGLTrackBuffers st)) =? 0)%nat
  then NoPopupChange
  else
    match BestMatch.trackId (pickAt st clickX_screen clickY_screen) with
    | Some tid =>
        if (tid =? 0)%Z then HidePopup
        else match activityMetadata st !! tid with
             | Some trackInfo => ShowPopup trackInfo
             | None => NoPopupChange
             end
    | None => HidePopup
    end.

(** ** Loading a dataset *)

(** What the stream request of one activity comes to: the request or the
    JSON decoding rejects, the response is not ok, or the body is decoded
    and [streams.latlng.data] is present or not. *)
Inductive StreamFetch :=
  | FetchRejected
  | ResponseNotOk
  | ResponseJson (latlng : option (list (R * R)))
                 (time distance : option (list R)).

(** The callback of [activities.map]: the settled value of one promise. *)
Definition streamPromise (request : ActivityInfo.t * StreamFetch)
    : option StreamData.t :=
  let '(activity, fetched) := request in
  match ActivityInfo.summary_polyline activity with
  | None => None
  | Some polyline =>
    if bool_decide (polyline = EmptyString) then None
    else
      match fetched with
      | FetchRejected => None
      | ResponseNotOk => None
      | ResponseJson (Some data) time distance =>
          Some (StreamData.mk activity data time distance)
      | ResponseJson None _ _ => None
      end
  end.

(** [(await Promise.all(streamPromises)).filter(s => s !== null)] *)
Definition resolvedStreamsOf (requests : list (ActivityInfo.t * StreamFetch))
    : list StreamData.t :=
  omap streamPromise requests.

Definition clearDataset (st : AppState) : AppState :=
  set_activeActivityFilters ∅
    (set_pointPresenceGrid ∅
       (set_activityTypes ∅
          (set_activityMetadata ∅
             (set_allTracksData [] st)))).

(** The [click] listener of the load button; [activities] is [None] when
    the activity list request fails. *)
Definition loadActivities
    (activities : option (list (ActivityInfo.t * StreamFetch)))
    (st : AppState) : AppState :=
  let st := clearDataset st in
  match activities with
  | None => st
  | Some [] => st
  | Some requests =>
      let resolvedStreams := resolvedStreamsOf requests in
      resetViewAndFitTracks
        (prepareDataForWebGL
           (calculateAllSegmentOverlaps
              (updateActivityToggles
                 (processStravaData resolvedStreams st))))
  end.

(** ** Reference points for the statements *)

(** The globals once [initializeRegl] has run on a canvas of the given
    size: no data, the default view centred in the canvas. *)
Definition initialAppState (width height : R) : AppState :=
  let vs := ViewState.mk 0 0 1 (width / 2) (height / 2) in
  mkAppState [] ∅ ∅ ∅ ∅ vs vs false Buffers.empty width height.

(** *** What a load builds *)

(** The tracks [processStravaData] pushes for the streams [l], the first of
    which has index [index]: one per stream of at least two points. *)
Fixpoint tracksFrom (index : nat) (l : list StreamData.t) : list Track.t :=
  match l with
  | [] => []
  | entry :: l' =>
      (if (length (StreamData.latlngStream entry) <? 2)%nat then []
       else [trackForOverlap entry index]) ++ tracksFrom (S index) l'
  end.

(** The grid after the points of [tracks] are added to [grid]. *)
Definition gridOfTracks (tracks : list Track.t)
    (grid : gmap string (gset nat)) : gmap string (gset nat) :=
  fold_left (λ g track,
    fold_left (gridAddPoint (Track.internalId track))
      (Track.translatedPoints track) g) tracks grid.

(** [trackInternalId] is in the set stored at [key]. *)
Definition inCell (grid : gmap string (gset nat)) (key : string)
    (trackInternalId : nat) : Prop :=
  ∃ s, grid !! key = Some s ∧ trackInternalId ∈ s.

(** No character of the string is the separator of [cellKey]. *)
Fixpoint noUnderscore (s : string) : Prop :=
  match s with
  | EmptyString => True
  | String c s' => c ≠ "_"%char ∧ noUnderscore s'
  end.

(** The streams and tracks of a load: what [loadActivities] passes to
    [processStravaData], and the tracks that call builds. *)
Definition loadedStreams
    (activities : option (list (ActivityInfo.t * StreamFetch)))
    : list StreamData.t :=
  resolvedStreamsOf (default [] activities).

Definition loadedTracks
    (activities : option (list (ActivityInfo.t * StreamFetch)))
    : list Track.t :=
  tracksFrom 0 (loadedStreams activities).

(** The request of one activity ends in a non-null entry: the activity has
    a summary polyline and the response carries [latlng] data. *)
Definition streamResolved (request : ActivityInfo.t * StreamFetch) : bool :=
  match ActivityInfo.summary_polyline (fst request), snd request with
  | Some polyline, ResponseJson (Some _) _ _ =>
      negb (bool_decide (polyline = EmptyString))
  | _, _ => false
  end.

(** The request succeeded with [latlng] data, as the response alone tells. *)
Definition fetchSucceededWithLatlng (request : ActivityInfo.t * StreamFetch)
    : bool :=
  match snd request with
  | ResponseJson (Some _) _ _ => true
  | _ => false
  end.

(** The entry is non-null and its stream has at least two points. *)
Definition yieldsTrack (request : ActivityInfo.t * StreamFetch) : bool :=
  streamResolved request
  && match snd request with
     | ResponseJson (Some data) _ _ => (2 <=? length data)%nat
     | _ => false
     end.

(** *** The render buffer, from the visible segments

    The segments of the tracks whose type is active, in track order, each
    flattened to two vertices of equal colour, thickness and track id, with
    consecutive vertex indices. *)
Definition visibleSegments (filters : gmap string bool)
    (tracks : list Track.t) : list (Track.t * Segment.t) :=
  flat_map (λ track,
    if filterActive filters (Track.type track)
    then map (pair track) (Track.segmentsWithOverlap track)
    else []) tracks.

Definition positionsOf (ts : Track.t * Segment.t) : list R :=
  let segment := snd ts in
  [Point.x (Segment.p1 segment); Point.y (Segment.p1 segment);
   Point.x (Segment.p2 segment); Point.y (Segment.p2 segment)].

Definition colorsOf (ts : Track.t * Segment.t) : list R :=
  let '(r, g, b) := segmentColorRGB (Segment.overlapCount (snd ts)) in
  [r; g; b; r; g; b].

Definition thicknessesOf (ts : Track.t * Segment.t) : list R :=
  let thickness := segmentThickness (Segment.overlapCount (snd ts)) in
  [thickness; thickness].

Definition trackIdsOf (ts : Track.t * Segment.t) : list Z :=
  [Track.id (fst ts); Track.id (fst ts)].

Definition buffersOfSegments (visible : list (Track.t * Segment.t))
    : Buffers.t :=
  Buffers.mk (flat_map positionsOf visible) (flat_map colorsOf visible)
    (flat_map thicknessesOf visible) (seq 0 (2 * length visible))
    (flat_map trackIdsOf visible).

(** *** What the picker's scan must leave *)



(** *** The picker in the words of its description

    The definitions of this part do not use [filteredOut] or
    [distancePointToSegment]: they say what the scan has to compute. *)

(** The point at parameter [t] of the line through [a] and [b]; the
    segment is the part with [0 <= t <= 1]. *)
Definition pointOnSegment (a b : Point.t) (t : R) : Point.t :=
  Point.mk (Point.x a + t * (Point.x b - Point.x a))
           (Point.y a + t * (Point.y b - Point.y a)).

Definition euclideanDistance (p q : Point.t) : R :=
  sqrt ((Point.x p - Point.x q) ^ 2 + (Point.y p - Point.y q) ^ 2).

(** [s] is a parameter of the orthogonal projection of [p] on the line
    through [a] and [b]: from the point at [s], the direction to [p] is
    orthogonal to the direction of the line. *)
Definition isProjectionParameter (p a b : Point.t) (s : R) : Prop :=
  (Point.x p - Point.x (pointOnSegment a b s)) * (Point.x b - Point.x a)
  + (Point.y p - Point.y (pointOnSegment a b s)) * (Point.y b - Point.y a)
  = 0.

Definition clampToUnit (s : R) : R :=
  if Rlt_dec s 0 then 0 else if Rlt_dec 1 s then 1 else s.

(** Project [p] on the line, clamp the parameter to [0, 1], and measure
    the distance to the point of the segment so found. *)
Definition isClampedProjectionDistance (p a b : Point.t) (dist : R) : Prop :=
  ∃ s, isProjectionParameter p a b s
    ∧ dist = euclideanDistance p (pointOnSegment a b (clampToUnit s)).




(** *** Sample inputs *)

Definition sampleActivity (id : Z) (type : string) : ActivityInfo.t :=
  ActivityInfo.mk id "Morning outing" type "2024-05-01T07:00:00" 5000 1500
    1600 40 (Some "a~l~Fjk~uOwHJy@P").

Definition sampleStream (id : Z) (type : string) (latlng : list (R * R))
    : StreamData.t :=
  StreamData.mk (sampleActivity id type) latlng None None.

(** One run of two points 10 units east and 5 units north of each other. *)
Definition sampleRunStream : StreamData.t :=
  sampleStream 101 "Run" [(45, 7); (45.0001, 7.0002)].

Definition sampleRunActivities
    : option (list (ActivityInfo.t * StreamFetch)) :=
  Some [(sampleActivity 101 "Run",
         ResponseJson (Some [(45, 7); (45.0001, 7.0002)]) None None)].

(** A load of one activity whose stream has two points 0.002 degrees of
    longitude apart. *)
Definition longSegmentActivities
    : option (list (ActivityInfo.t * StreamFetch)) :=
  Some [(sampleActivity 7 "Ride",
         ResponseJson (Some [(0, 0); (0, 0.002)]) None None)].

(** A load of one activity whose stream has a single point. *)
Definition singlePointActivities
    : option (list (ActivityInfo.t * StreamFetch)) :=
  Some [(sampleActivity 9 "Walk", ResponseJson (Some [(45, 7)]) None None)].

(** A load of three activities: the request of the second one fails. *)
Definition threeActivities : option (list (ActivityInfo.t * StreamFetch)) :=
  Some [(sampleActivity 1 "Run",
         ResponseJson (Some [(45, 7); (45.0001, 7.0002)]) None None);
        (sampleActivity 2 "Ride", ResponseNotOk);
        (sampleActivity 3 "Hike",
         ResponseJson (Some [(46, 8); (46.0002, 8.0001)]) None None)].

(** A state with one visible track of a single segment from (0, 0) to
    (10, -5), in the default view of an 800x600 canvas. *)
Definition pickSampleTrack : Track.t :=
  Track.mk 101 0 "run" [Point.mk 0 0; Point.mk 10 (-5)]
    [Segment.mk (Point.mk 0 0) (Point.mk 10 (-5)) 1].

Definition pickSampleState : AppState :=
  mkAppState [pickSampleTrack]
    {[ 101%Z := metadataOf (sampleActivity 101 "Run") ]}
    {[ "run" ]}
    {[ "run" := true ]}
    ∅
    (ViewState.mk 0 0 1 400 300) (ViewState.mk 0 0 1 400 300)
    false
    (Buffers.mk [0; 0; 10; -5] [0; 0; 0; 0; 0; 0] [2; 2]
       [0; 1]%nat [101; 101]%Z)
    800 600.



(** Two tracks of different types over the same two points, (0, 0) and
    (10, 0) once normalised. *)
Definition twinActivities : option (list (ActivityInfo.t * StreamFetch)) :=
  Some [(sampleActivity 11 "Run",
         ResponseJson (Some [(0, 0); (0, 0.0002)]) None None);
        (sampleActivity 12 "Ride",
         ResponseJson (Some [(0, 0); (0, 0.0002)]) None None)].

(** * The rest of the module: interaction, fitting, display helpers *)

(** ** Mouse interaction *)

Definition set_isPanning v (st : AppState) : AppState :=
  mkAppState (allTracksData st) (activityMetadata st) (activityTypes st)
    (activeActivityFilters st) (pointPresenceGrid st) (viewState st)
    (initialViewState st) v (webGLTrackBuffers st)
    (canvasWidth st) (canvasHeight st).

(** The globals together with [lastPanCanvasPosition], which only the pan
    listeners use. *)
Module Interaction.
Record t := mk { app : AppState; lastPanCanvasPosition : R * R }.
End Interaction.

(** The [mousedown] listener: only the main button starts a pan. *)
Definition onMouseDown (button : Z) (clientX clientY : R)
    (it : Interaction.t) : Interaction.t :=
  if negb (button =? 0)%Z then it
  else Interaction.mk (set_isPanning true (Interaction.app it))
         (clientX, clientY).

(** The [mousemove] listener. *)
Definition onMouseMove (clientX clientY : R) (it : Interaction.t)
    : Interaction.t :=
  let st := Interaction.app it in
  if negb (isPanning st) then it
  else
    let dx := clientX - fst (Interaction.lastPanCanvasPosition it) in
    let dy := clientY - snd (Interaction.lastPanCanvasPosition it) in
    Interaction.mk (set_viewState (panBy dx dy (viewState st)) st)
      (clientX, clientY).

(** The [mouseup] and [mouseleave] listeners. *)
Definition onMouseUp (it : Interaction.t) : Interaction.t :=
  if isPanning (Interaction.app it)
  then Interaction.mk (set_isPanning false (Interaction.app it))
         (Interaction.lastPanCanvasPosition it)
  else it.

Definition onMouseLeave (it : Interaction.t) : Interaction.t := onMouseUp it.

(** The [click] listener of the reset button. *)
Definition onResetView (st : AppState) : AppState :=
  let st := set_viewState (initialViewState st) st in
  if (0 <? length (allTracksData st))%nat
     && (length (Buffers.positions (webGLTrackBuffers st)) =? 0)%nat
  then prepareDataForWebGL st
  else st.

(** The events that change the state, and their listeners. *)
Inductive Event :=
  | Wheel (deltaY mouseX mouseY : R)
  | MouseDown (button : Z) (clientX clientY : R)
  | MouseMove (clientX clientY : R)
  | MouseUp
  | MouseLeave
  | ResetViewClick
  | FilterChange (type : string) (checked : bool)
  | LoadClick (activities : option (list (ActivityInfo.t * StreamFetch))).

Definition onApp (f : AppState → AppState) (it : Interaction.t)
    : Interaction.t :=
  Interaction.mk (f (Interaction.app it)) (Interaction.lastPanCanvasPosition it).

Definition handleEvent (it : Interaction.t) (e : Event) : Interaction.t :=
  match e with
  | Wheel deltaY mouseX mouseY => onApp (onWheel deltaY mouseX mouseY) it
  | MouseDown button clientX clientY => onMouseDown button clientX clientY it
  | MouseMove clientX clientY => onMouseMove clientX clientY it
  | MouseUp => onMouseUp it
  | MouseLeave => onMouseLeave it
  | ResetViewClick => onApp onResetView it
  | FilterChange type checked => onApp (onFilterChange type checked) it
  | LoadClick activities => onApp (loadActivities activities) it
  end.

Definition handleEvents (events : list Event) (it : Interaction.t)
    : Interaction.t :=
  fold_left handleEvent events it.

(** The page once [initializeRegl] has run. *)
Definition initialInteraction (width height : R) : Interaction.t :=
  Interaction.mk (initialAppState width height) (0, 0).

(** Events that leave the dataset and the stored initial view alone. *)
Definition isViewEvent (e : Event) : bool :=
  match e with
  | LoadClick _ => false
  | _ => true
  end.

(** The zoom limits of the wheel listener. *)
Definition scaleInRange (vs : ViewState.t) : Prop :=
  0.01 <= ViewState.scale vs <= 100.

(** ** Fitting the view *)

(** Every translated point of every track, in the order the bounding-box
    loops visit them. *)
Definition allPoints (tracks : list Track.t) : list Point.t :=
  flat_map Track.translatedPoints tracks.

(** [(minX, maxX, minY, maxY)] is the bounding box of [points]: it contains
    every point and each side is reached by one. *)
Definition isBoundingBox (points : list Point.t) (box : R * R * R * R)
    : Prop :=
  let '(minX, maxX, minY, maxY) := box in
  (∀ p, p ∈ points →
     minX <= Point.x p <= maxX ∧ minY <= Point.y p <= maxY)
  ∧ (∃ p, p ∈ points ∧ Point.x p = minX)
  ∧ (∃ p, p ∈ points ∧ Point.x p = maxX)
  ∧ (∃ p, p ∈ points ∧ Point.y p = minY)
  ∧ (∃ p, p ∈ points ∧ Point.y p = maxY).

(** The two end points shared by the tracks of [twinActivities], and the
    tracks as [processStravaData] builds them. *)
Definition twinPoint1 : Point.t :=
  translateScale (LatLon.mk 0 0) (LatLon.mk 0 0).

Definition twinPoint2 : Point.t :=
  translateScale (LatLon.mk 0 0) (LatLon.mk 0 0.0002).

Definition twinRun : Track.t :=
  Track.mk 11 0 "run" [twinPoint1; twinPoint2] [].

Definition twinRide : Track.t :=
  Track.mk 12 1 "ride" [twinPoint1; twinPoint2] [].

(** The metadata map after the streams [l] are processed, starting from
    [metadata]: a later stream of the same activity id replaces an earlier
    one. *)
Fixpoint metadataOfStreams (l : list StreamData.t)
    (metadata : gmap Z TrackMeta.t) : gmap Z TrackMeta.t :=
  match l with
  | [] => metadata
  | entry :: l' =>
      metadataOfStreams l'
        (if (length (StreamData.latlngStream entry) <? 2)%nat then metadata
         else <[ActivityInfo.id (StreamData.activityInfo entry)
                 := metadataOf (StreamData.activityInfo entry)]> metadata)
  end.

(** ** The pop-up *)

(** The placement at the end of [showPopup]: [width] and [height] are the
    sizes of the pop-up's [getBoundingClientRect()], the result is
    [(left, top)] as written to [popupElement.style], in pixels. *)
Definition popupPosition
    (mouseX mouseY width height innerWidth innerHeight : R) : R * R :=
  let top := mouseY + 15 in
  let left := mouseX + 15 in
  let left :=
    if Rgt_dec (left + width) innerWidth then mouseX - width - 15 else left in
  let top :=
    if Rgt_dec (top + height) innerHeight then mouseY - height - 15 else top in
  (Rmax 0 left, Rmax 0 top).

(** [x % n] on numbers: [x - n * q] with [q] the quotient truncated towards
    zero, so that the remainder has the sign of [x]. *)
Definition jsTrunc (x : R) : Z := if Rle_dec 0 x then Zfloor x else Zceil x.

Definition jsRem (x n : R) : R := x - n * IZR (jsTrunc (x / n)).

(** [String.prototype.trim] on the characters of these strings: white space
    is removed at both ends. *)
Definition isWhiteSpace (c : ascii) : bool :=
  match c with
  | " "%char | "009"%char | "010"%char | "011"%char | "012"%char
  | "013"%char => true
  | _ => false
  end.

Fixpoint trimStart (s : string) : string :=
  match s with
  | String c r => if isWhiteSpace c then trimStart r else s
  | EmptyString => EmptyString
  end.

Fixpoint trimEnd (s : string) : string :=
  match s with
  | String c r =>
      match trimEnd r with
      | EmptyString => if isWhiteSpace c then EmptyString else String c EmptyString
      | r' => String c r'
      end
  | EmptyString => EmptyString
  end.

Definition trim (s : string) : string := trimEnd (trimStart s).

(** The three numbers [h], [m] and [s] of [formatDuration]. *)
Definition durationHours (seconds : R) : Z := Zfloor (seconds / 3600).

Definition durationMinutes (seconds : R) : Z :=
  Zfloor (jsRem seconds 3600 / 60).

Definition durationSeconds (seconds : R) : Z := Zfloor (jsRem seconds 60).

Definition formatDuration (seconds : R) : string :=
  let h := durationHours seconds in
  let m := durationMinutes seconds in
  let s := durationSeconds seconds in
  let str := EmptyString in
  let str := if (0 <? h)%Z then str +:+ pretty h +:+ "h " else str in
  let str :=
    if (0 <? m)%Z || (0 <? h)%Z then str +:+ pretty m +:+ "m " else str in
  let str := str +:+ pretty s +:+ "s" in
  trim str.

Definition isDigit (c : ascii) : bool :=
  match c with
  | "0"%char | "1"%char | "2"%char | "3"%char | "4"%char | "5"%char
  | "6"%char | "7"%char | "8"%char | "9"%char => true
  | _ => false
  end.

Fixpoint onlyDigits (s : string) : Prop :=
  match s with
  | EmptyString => True
  | String c s' => isDigit c = true ∧ onlyDigits s'
  end.

Definition startsNonDigit (s : string) : Prop :=
  match s with
  | String c _ => isDigit c = false
  | EmptyString => False
  end.

(** * Properties *)

(** Goals about [Rmin] and [Rmax] of linear terms: split on every
    comparison. *)
Ltac minmax_lra :=
  unfold Rmin, Rmax; repeat (destruct (Rle_dec _ _)); lra.

(** The numeric constants of the configuration, unfolded for [lra]. *)
Ltac unfold_constants :=
  unfold GRID_CELL_SIZE, OVERLAP_PROXIMITY_ABSTRACT, GLOBAL_SCALE,
    CLICK_SENSITIVITY_PIXELS, MAX_OVERLAPS_FOR_FULL_EFFECT,
    MIN_OVERLAPS_FOR_EFFECT_START, MAX_OVERLAP_THICKNESS,
    MIN_OVERLAP_THICKNESS_START, NON_OVERLAP_THICKNESS,
    colorFadeStartReferenceCount in *.

(** ** The helpers on concrete inputs *)

Example cellKey_negative : cellKey (-3) 4 = "-3_4".
Proof. reflexivity. Qed.

Example toLowerCase_Ride : toLowerCase "VirtualRide" = "virtualride".
Proof. reflexivity. Qed.

Example loopIndices_5 : loopIndices 5 = [0; 2; 4]%nat.
Proof. reflexivity. Qed.

Example loopIndices_4 : loopIndices 4 = [0; 2]%nat.
Proof. reflexivity. Qed.

Example streamPromise_not_ok :
  streamPromise (sampleActivity 2 "Ride", ResponseNotOk) = None.
Proof. reflexivity. Qed.

Example streamPromise_no_polyline :
  streamPromise
    (ActivityInfo.mk 4 "Yoga" "Yoga" "2024-05-02T18:00:00" 0 3600 3600 0 None,
     ResponseJson (Some [(45, 7); (45, 7)]) None None) = None.
Proof. reflexivity. Qed.

(** ** The normaliser *)

Lemma processStream_tracks st entry index :
  allTracksData (processStream st entry index)
  = allTracksData st ++
    (if (length (StreamData.latlngStream entry) <? 2)%nat then []
     else [trackForOverlap entry index]).
Proof.
  unfold processStream.
  destruct (length (StreamData.latlngStream entry) <? 2)%nat; simpl.
  - by rewrite app_nil_r.
  - done.
Qed.

Lemma processStream_grid st entry index :
  pointPresenceGrid (processStream st entry index)
  = gridOfTracks
      (if (length (StreamData.latlngStream entry) <? 2)%nat then []
       else [trackForOverlap entry index]) (pointPresenceGrid st).
Proof.
  unfold processStream.
  by destruct (length (StreamData.latlngStream entry) <? 2)%nat.
Qed.

Lemma gridOfTracks_app t1 t2 grid :
  gridOfTracks (t1 ++ t2) grid = gridOfTracks t2 (gridOfTracks t1 grid).
Proof. unfold gridOfTracks. by rewrite fold_left_app. Qed.

Lemma forEachFrom_processStream_tracks l k st :
  allTracksData (forEachFrom processStream k l st)
  = allTracksData st ++ tracksFrom k l.
Proof.
  revert k st. induction l as [|entry l IH]; intros k st; simpl.
  - by rewrite app_nil_r.
  - rewrite IH, processStream_tracks. by rewrite <- app_assoc.
Qed.

Lemma forEachFrom_processStream_grid l k st :
  pointPresenceGrid (forEachFrom processStream k l st)
  = gridOfTracks (tracksFrom k l) (pointPresenceGrid st).
Proof.
  revert k st. induction l as [|entry l IH]; intros k st; simpl.
  - done.
  - by rewrite IH, processStream_grid, gridOfTracks_app.
Qed.

Lemma elem_of_tracksFrom track k l :
  track ∈ tracksFrom k l ↔
  ∃ i entry, l !! i = Some entry
    ∧ (2 <= length (StreamData.latlngStream entry))%nat
    ∧ track = trackForOverlap entry (k + i).
Proof.
  revert k. induction l as [|e l IH]; intros k; simpl.
  - split; [by intros ?%elem_of_nil | by intros (i & entry & ? & _)].
  - rewrite elem_of_app, IH. split.
    + intros [Hin | (i & entry & Hi & Hlen & ->)].
      * destruct (Nat.ltb_spec (length (StreamData.latlngStream e)) 2);
          [by apply elem_of_nil in Hin |].
        apply list_elem_of_singleton in Hin as ->.
        exists 0%nat, e. rewrite Nat.add_0_r. done.
      * exists (S i), entry. split_and!; [done | done | f_equal; lia].
    + intros ([|i] & entry & Hi & Hlen & ->); simpl in Hi.
      * injection Hi as ->. left.
        destruct (Nat.ltb_spec (length (StreamData.latlngStream entry)) 2);
          [lia |].
        rewrite Nat.add_0_r. by apply list_elem_of_singleton.
      * right. exists i, entry. split_and!; [done | done | f_equal; lia].
Qed.

Lemma translatedScaledPointsOf_cons lat0 lon0 rest :
  translatedScaledPointsOf ((lat0, lon0) :: rest)
  = map (λ p, Point.mk ((snd p - lon0) * GLOBAL_SCALE)
                       (- (fst p - lat0) * GLOBAL_SCALE))
      ((lat0, lon0) :: rest).
Proof.
  unfold translatedScaledPointsOf, originalPointsOf. simpl.
  f_equal. rewrite map_map. done.
Qed.

(** C1: every track that [processStravaData] builds comes from a stream of
    at least two points; its points are the stream's points, each
    normalised to [x = (lon - lon0) * GLOBAL_SCALE] and
    [y = -(lat - lat0) * GLOBAL_SCALE] for the stream's first point
    [(lat0, lon0)], and its first point is exactly [(0, 0)]. *)
Theorem normalized_track_points streams st track :
  track ∈ allTracksData (processStravaData streams (clearDataset st)) →
  ∃ index entry lat0 lon0 rest,
    streams !! index = Some entry
    ∧ (2 <= length (StreamData.latlngStream entry))%nat
    ∧ StreamData.latlngStream entry = (lat0, lon0) :: rest
    ∧ Track.translatedPoints track
      = map (λ p, Point.mk ((snd p - lon0) * GLOBAL_SCALE)
                           (- (fst p - lat0) * GLOBAL_SCALE))
          (StreamData.latlngStream entry)
    ∧ Track.translatedPoints track !! 0%nat = Some (Point.mk 0 0).
Proof.
  unfold processStravaData, forEach.
  rewrite forEachFrom_processStream_tracks. simpl.
  intros (i & entry & Hi & Hlen & ->)%elem_of_tracksFrom.
  destruct (StreamData.latlngStream entry) as [|[lat0 lon0] rest] eqn:Hs;
    [simpl in Hlen; lia |].
  exists i, entry, lat0, lon0, rest.
  split_and!; try done.
  - by rewrite Hs.
  - simpl. rewrite Hs. apply translatedScaledPointsOf_cons.
  - simpl. rewrite Hs, translatedScaledPointsOf_cons. simpl.
    f_equal. f_equal; lra.
Qed.

Lemma normalized_track_points_witness :
  ∃ index entry lat0 lon0 rest,
    [sampleRunStream] !! index = Some entry
    ∧ (2 <= length (StreamData.latlngStream entry))%nat
    ∧ StreamData.latlngStream entry = (lat0, lon0) :: rest
    ∧ Track.translatedPoints (trackForOverlap sampleRunStream 0)
      = map (λ p, Point.mk ((snd p - lon0) * GLOBAL_SCALE)
                           (- (fst p - lat0) * GLOBAL_SCALE))
          (StreamData.latlngStream entry)
    ∧ Track.translatedPoints (trackForOverlap sampleRunStream 0) !! 0%nat
      = Some (Point.mk 0 0).
Proof.
  apply (normalized_track_points [sampleRunStream] (initialAppState 800 600)).
  simpl. apply list_elem_of_here.
Defined.

(** ** The point-presence grid *)

Lemma pretty_N_char_noUnderscore x : pretty_N_char x ≠ "_"%char.
Proof. unfold pretty_N_char. by repeat case_match. Qed.

Lemma pretty_N_go_noUnderscore x s :
  noUnderscore s → noUnderscore (pretty_N_go x s).
Proof.
  revert s. induction (N.lt_wf_0 x) as [x _ IH]; intros s Hs.
  assert (x = 0 ∨ 0 < x)%N as [-> | Hpos] by lia.
  - by rewrite pretty_N_go_0.
  - rewrite pretty_N_go_step by done. apply IH.
    + by apply N.div_lt.
    + split; [apply pretty_N_char_noUnderscore | done].
Qed.

Lemma pretty_N_noUnderscore (x : N) : noUnderscore (pretty x).
Proof.
  unfold pretty, pretty_N. case_decide.
  - by split.
  - by apply pretty_N_go_noUnderscore.
Qed.

Lemma pretty_Z_noUnderscore (z : Z) : noUnderscore (pretty z).
Proof.
  destruct z as [|q|q]; unfold pretty, pretty_Z.
  - by split.
  - apply pretty_N_noUnderscore.
  - split; [done |]. apply pretty_N_noUnderscore.
Qed.

Lemma append_cons c (s t : string) : String c s +:+ t = String c (s +:+ t).
Proof. reflexivity. Qed.

Lemma append_nil (t : string) : "" +:+ t = t.
Proof. reflexivity. Qed.

Lemma append_separator_inj s1 s2 t1 t2 :
  noUnderscore s1 → noUnderscore s2 →
  s1 +:+ "_" +:+ t1 = s2 +:+ "_" +:+ t2 → s1 = s2 ∧ t1 = t2.
Proof.
  revert s2. induction s1 as [|c s1 IH]; intros [|d s2] H1 H2;
    rewrite ?append_cons, ?append_nil.
  - by intros [= ->].
  - intros [= <- _]. by destruct H2.
  - intros [= -> _]. by destruct H1.
  - intros [= -> Heq]. destruct H1, H2.
    by destruct (IH s2) as [-> ->].
Qed.

Lemma cellKey_inj gx gy gx' gy' :
  cellKey gx gy = cellKey gx' gy' → gx = gx' ∧ gy = gy'.
Proof.
  unfold cellKey. intros Heq.
  apply append_separator_inj in Heq as [Hx Hy];
    [| apply pretty_Z_noUnderscore ..].
  split; by apply (inj pretty).
Qed.

Lemma gridAdd_insert key i (grid : gmap string (gset nat)) :
  gridAdd key i grid = <[key := default ∅ (grid !! key) ∪ {[i]}]> grid.
Proof.
  unfold gridAdd. destruct (grid !! key) as [s|] eqn:Hk; simpl.
  - by rewrite Hk.
  - by rewrite lookup_insert_eq, insert_insert_eq.
Qed.

Example gridAdd_twice :
  gridAdd "0_0" 1 (gridAdd "0_0" 0 ∅) !! "0_0"
  = Some ({[ 0%nat; 1%nat ]} : gset nat).
Proof.
  rewrite !gridAdd_insert, lookup_insert_eq, lookup_insert_eq, lookup_empty.
  reflexivity.
Qed.

Lemma inCell_gridAdd key i grid key' i' :
  inCell (gridAdd key i grid) key' i'
  ↔ inCell grid key' i' ∨ (key' = key ∧ i' = i).
Proof.
  rewrite gridAdd_insert. unfold inCell.
  destruct (decide (key = key')) as [<- | Hne].
  - rewrite lookup_insert_eq. split.
    + intros (s & [= <-] & Hin). apply elem_of_union in Hin as [Hin | Hin].
      * left. destruct (grid !! key) as [s|]; [by exists s |].
        by apply elem_of_empty in Hin.
      * right. by apply elem_of_singleton in Hin.
    + intros [(s & Hs & Hin) | [_ ->]]; eexists; split; try done.
      * rewrite Hs. simpl. set_solver.
      * set_solver.
  - rewrite lookup_insert_ne by done. naive_solver.
Qed.

Lemma inCell_fold_gridAddPoint i points grid key i' :
  inCell (fold_left (gridAddPoint i) points grid) key i'
  ↔ inCell grid key i'
    ∨ (i' = i ∧ ∃ p, p ∈ points
         ∧ cellKey (gridCoord (Point.x p)) (gridCoord (Point.y p)) = key).
Proof.
  revert grid. induction points as [|p points IH]; intros grid; simpl.
  - split; [by left |]. intros [? | (_ & p & ?%elem_of_nil & _)]; done.
  - rewrite IH. unfold gridAddPoint. rewrite inCell_gridAdd.
    setoid_rewrite elem_of_cons. naive_solver.
Qed.

Lemma inCell_gridOfTracks tracks grid key i :
  inCell (gridOfTracks tracks grid) key i
  ↔ inCell grid key i
    ∨ ∃ track, track ∈ tracks ∧ Track.internalId track = i
        ∧ ∃ p, p ∈ Track.translatedPoints track
            ∧ cellKey (gridCoord (Point.x p)) (gridCoord (Point.y p)) = key.
Proof.
  revert grid. induction tracks as [|track tracks IH]; intros grid.
  - simpl. split; [by left |]. intros [? | (t & ?%elem_of_nil & _)]; done.
  - change (gridOfTracks (track :: tracks) grid)
      with (gridOfTracks tracks
              (fold_left (gridAddPoint (Track.internalId track))
                 (Track.translatedPoints track) grid)).
    rewrite IH, inCell_fold_gridAddPoint.
    setoid_rewrite elem_of_cons. naive_solver.
Qed.

Lemma inCell_empty key i : ¬ inCell ∅ key i.
Proof. intros (s & Hs & _). by rewrite lookup_empty in Hs. Qed.

(** *** What a load leaves in the state *)

Lemma resetViewAndFitTracks_frame st :
  allTracksData (resetViewAndFitTracks st) = allTracksData st
  ∧ pointPresenceGrid (resetViewAndFitTracks st) = pointPresenceGrid st
  ∧ activeActivityFilters (resetViewAndFitTracks st) = activeActivityFilters st
  ∧ activityMetadata (resetViewAndFitTracks st) = activityMetadata st
  ∧ webGLTrackBuffers (resetViewAndFitTracks st) = webGLTrackBuffers st.
Proof.
  unfold resetViewAndFitTracks.
  destruct (allTracksData st) eqn:Ht; [by rewrite <- Ht |].
  rewrite <- Ht.
  destruct (dataBounds (allTracksData st)) as [[[[minX maxX] minY] maxY]|];
    [| done].
  by destruct (bool_decide (maxX - minX = 0) && bool_decide (maxY - minY = 0)).
Qed.

Lemma calculateTrackOverlaps_internalId grid track :
  Track.internalId (calculateTrackOverlaps grid track) = Track.internalId track.
Proof. unfold calculateTrackOverlaps. by case_match. Qed.

Lemma calculateTrackOverlaps_points grid track :
  Track.translatedPoints (calculateTrackOverlaps grid track)
  = Track.translatedPoints track.
Proof. unfold calculateTrackOverlaps. by case_match. Qed.

Lemma calculateTrackOverlaps_id grid track :
  Track.id (calculateTrackOverlaps grid track) = Track.id track.
Proof. unfold calculateTrackOverlaps. by case_match. Qed.

Lemma calculateTrackOverlaps_type grid track :
  Track.type (calculateTrackOverlaps grid track) = Track.type track.
Proof. unfold calculateTrackOverlaps. by case_match. Qed.

Lemma calculateTrackOverlaps_segments grid track :
  Track.segmentsWithOverlap (calculateTrackOverlaps grid track)
  = segmentsOf grid (Track.internalId track) (Track.translatedPoints track).
Proof.
  unfold calculateTrackOverlaps.
  destruct (Nat.ltb_spec (length (Track.translatedPoints track)) 2); [| done].
  simpl. by destruct (Track.translatedPoints track) as [|? [|? ?]];
    [| | simpl in *; lia].
Qed.

Lemma loadActivities_grid activities st :
  pointPresenceGrid (loadActivities activities st)
  = gridOfTracks (loadedTracks activities) ∅.
Proof.
  unfold loadActivities, loadedTracks, loadedStreams.
  destruct activities as [[|request requests]|]; try done.
  destruct (resetViewAndFitTracks_frame
    (prepareDataForWebGL (calculateAllSegmentOverlaps (updateActivityToggles
      (processStravaData (resolvedStreamsOf (request :: requests))
         (clearDataset st)))))) as (_ & -> & _).
  simpl. unfold processStravaData, forEach.
  by rewrite forEachFrom_processStream_grid.
Qed.

Lemma loadActivities_tracks activities st :
  allTracksData (loadActivities activities st)
  = map (calculateTrackOverlaps (gridOfTracks (loadedTracks activities) ∅))
      (loadedTracks activities).
Proof.
  unfold loadActivities, loadedTracks, loadedStreams.
  destruct activities as [[|request requests]|]; try done.
  destruct (resetViewAndFitTracks_frame
    (prepareDataForWebGL (calculateAllSegmentOverlaps (updateActivityToggles
      (processStravaData (resolvedStreamsOf (request :: requests))
         (clearDataset st)))))) as (-> & _).
  simpl. unfold processStravaData, forEach.
  by rewrite forEachFrom_processStream_grid, forEachFrom_processStream_tracks.
Qed.

(** C3: after a load, a track's internal id is in the set stored at the key
    of cell [(gx, gy)] exactly when one of that track's normalised points
    has [floor (x / GRID_CELL_SIZE) = gx] and
    [floor (y / GRID_CELL_SIZE) = gy]; adding the same (cell, track) pair a
    second time leaves the grid unchanged. *)
Theorem grid_cell_membership activities st :
  let st' := loadActivities activities st in
  (∀ (trackInternalId : nat) (gx gy : Z),
     inCell (pointPresenceGrid st') (cellKey gx gy) trackInternalId
     ↔ ∃ track, track ∈ allTracksData st'
         ∧ Track.internalId track = trackInternalId
         ∧ ∃ p, p ∈ Track.translatedPoints track
             ∧ Zfloor (Point.x p / GRID_CELL_SIZE) = gx
             ∧ Zfloor (Point.y p / GRID_CELL_SIZE) = gy)
  ∧ (∀ key trackInternalId (grid : gmap string (gset nat)),
       gridAdd key trackInternalId (gridAdd key trackInternalId grid)
       = gridAdd key trackInternalId grid).
Proof.
  intros st'. subst st'. split.
  - intros i gx gy.
    rewrite loadActivities_grid, loadActivities_tracks, inCell_gridOfTracks.
    split.
    + intros [[]%inCell_empty | (track & Hin & Hid & p & Hp & Hkey)].
      apply cellKey_inj in Hkey as [Hx Hy].
      eexists. split; [apply list_elem_of_fmap; by exists track |].
      rewrite calculateTrackOverlaps_internalId,
        calculateTrackOverlaps_points.
      split; [done |]. by exists p.
    + intros (track' & Hin & Hid & p & Hp & Hx & Hy).
      apply list_elem_of_fmap in Hin as (track & -> & Hin).
      rewrite calculateTrackOverlaps_internalId in Hid.
      rewrite calculateTrackOverlaps_points in Hp.
      right. exists track. split_and!; try done.
      exists p. split; [done |]. unfold gridCoord. by rewrite Hx, Hy.
  - intros key i grid. rewrite !gridAdd_insert.
    rewrite lookup_insert_eq, insert_insert_eq. simpl.
    f_equal. set_solver.
Qed.

(** ** The overlap classifier *)

Lemma elem_of_vicinity_row (grid : gmap string (gset nat)) gx gy
    (offsets : list Z) (acc : gset nat) i :
  i ∈ fold_left (λ acc dy,
        match grid !! cellKey gx (gy + dy) with
        | Some s => acc ∪ s
        | None => acc
        end) offsets acc
  ↔ i ∈ acc ∨ ∃ dy, dy ∈ offsets ∧ inCell grid (cellKey gx (gy + dy)%Z) i.
Proof.
  revert acc. induction offsets as [|d offsets IH]; intros acc; simpl.
  - split; [by left |]. intros [? | (dy & ?%elem_of_nil & _)]; done.
  - rewrite IH. unfold inCell. setoid_rewrite elem_of_cons. split.
    + intros [Hin | (dy & Hdy & Hcell)].
      * destruct (grid !! cellKey gx (gy + d)) as [s|] eqn:Hs; [| by left].
        apply elem_of_union in Hin as [Hin | Hin]; [by left |].
        right. exists d. split; [by left |]. by exists s.
      * right. exists dy. split; [by right | done].
    + intros [Hin | (dy & [-> | Hdy] & s & Hs & Hin)].
      * left. destruct (grid !! cellKey gx (gy + d)); [set_solver | done].
      * left. rewrite Hs. set_solver.
      * right. exists dy. split; [done |]. by exists s.
Qed.

Lemma elem_of_vicinity_block (grid : gmap string (gset nat)) gx gy
    (xoffsets yoffsets : list Z) (acc : gset nat) i :
  i ∈ fold_left (λ acc dx,
        fold_left (λ acc dy,
          match grid !! cellKey (gx + dx) (gy + dy) with
          | Some s => acc ∪ s
          | None => acc
          end) yoffsets acc) xoffsets acc
  ↔ i ∈ acc ∨ ∃ dx dy, dx ∈ xoffsets ∧ dy ∈ yoffsets
                ∧ inCell grid (cellKey (gx + dx) (gy + dy))%Z i.
Proof.
  revert acc. induction xoffsets as [|d xoffsets IH]; intros acc; simpl.
  - split; [by left |]. intros [? | (dx & dy & ?%elem_of_nil & _)]; done.
  - rewrite IH, elem_of_vicinity_row. setoid_rewrite elem_of_cons. split.
    + intros [[Hin | (dy & Hdy & Hcell)] | (dx & dy & Hdx & Hdy & Hcell)].
      * by left.
      * right. exists d, dy. split_and!; [by left | done | done].
      * right. exists dx, dy. split_and!; [by right | done | done].
    + intros [Hin | (dx & dy & [-> | Hdx] & Hdy & Hcell)].
      * by left; left.
      * left; right. by exists dy.
      * right. by exists dx, dy.
Qed.

Lemma elem_of_vicinityOffsets (d : Z) :
  d ∈ vicinityOffsets ↔ (-1 <= d <= 1)%Z.
Proof.
  unfold vicinityOffsets. rewrite !elem_of_cons, elem_of_nil. lia.
Qed.

(** The ids found around a cell are those of the tracks with a point in
    the 3x3 block of cells. *)
Lemma elem_of_vicinity tracks gx gy i :
  i ∈ uniqueTrackInternalIdsInVicinity (gridOfTracks tracks ∅) gx gy
  ↔ ∃ track, track ∈ tracks ∧ Track.internalId track = i
      ∧ ∃ p, p ∈ Track.translatedPoints track
          ∧ (-1 <= gridCoord (Point.x p) - gx <= 1)%Z
          ∧ (-1 <= gridCoord (Point.y p) - gy <= 1)%Z.
Proof.
  unfold uniqueTrackInternalIdsInVicinity.
  rewrite elem_of_vicinity_block. split.
  - intros [[]%elem_of_empty | (dx & dy & Hdx & Hdy & Hcell)].
    apply elem_of_vicinityOffsets in Hdx, Hdy.
    apply inCell_gridOfTracks in Hcell
      as [[]%inCell_empty | (track & Hin & Hid & p & Hp & Hkey)].
    apply cellKey_inj in Hkey as [Hx Hy].
    exists track. split_and!; try done.
    exists p. split_and!; try done; lia.
  - intros (track & Hin & Hid & p & Hp & Hx & Hy). right.
    exists (gridCoord (Point.x p) - gx)%Z, (gridCoord (Point.y p) - gy)%Z.
    rewrite !elem_of_vicinityOffsets. split; [lia |]. split; [lia |].
    apply inCell_gridOfTracks. right. exists track.
    split; [done |]. split; [done |].
    exists p. split; [done |]. f_equal; lia.
Qed.

Lemma Rabs_le_between a b : Rabs a <= b → - b <= a <= b.
Proof. unfold Rabs. destruct (Rcase_abs a); lra. Qed.

Lemma Zfloor_close a b :
  Rabs (a - b) <= 1 → (-1 <= Zfloor a - Zfloor b <= 1)%Z.
Proof.
  intros Hab. apply Rabs_le_between in Hab.
  pose proof (Zfloor_bound a) as Ha. pose proof (Zfloor_bound b) as Hb.
  assert (IZR (Zfloor a) < IZR (Zfloor b + 2)) as H1
    by (rewrite plus_IZR; lra).
  assert (IZR (Zfloor b) < IZR (Zfloor a + 2)) as H2
    by (rewrite plus_IZR; lra).
  apply lt_IZR in H1, H2. lia.
Qed.

Lemma gridCoord_close u v :
  Rabs (u - v) <= GRID_CELL_SIZE →
  (-1 <= gridCoord u - gridCoord v <= 1)%Z.
Proof.
  intros H. apply Zfloor_close.
  unfold GRID_CELL_SIZE, OVERLAP_PROXIMITY_ABSTRACT in *.
  apply Rabs_le. apply Rabs_le_between in H. lra.
Qed.

Lemma segmentsOf_lookup grid internalId points j p1 p2 :
  points !! j = Some p1 → points !! S j = Some p2 →
  segmentsOf grid internalId points !! j
  = Some (Segment.mk p1 p2
            (getOverlapCountForPoint grid (midpointOf p1 p2) internalId)).
Proof.
  revert j. induction points as [|q points IH]; intros j; [done |].
  destruct points as [|q' points]; [by destruct j |].
  destruct j as [|j].
  - by intros [= ->] [= ->].
  - intros H1 H2. by apply (IH j).
Qed.

Lemma size_pos_of_elem (X : gset nat) i : i ∈ X → (1 <= size X)%nat.
Proof.
  intros Hin. destruct (size X) eqn:Hsize; [| lia].
  apply size_empty_inv in Hsize. set_solver.
Qed.

Lemma gridCoord_eq (z : Z) v :
  IZR z * GRID_CELL_SIZE <= v < (IZR z + 1) * GRID_CELL_SIZE →
  gridCoord v = z.
Proof.
  unfold gridCoord, GRID_CELL_SIZE, OVERLAP_PROXIMITY_ABSTRACT.
  intros H. apply Zfloor_eq. lra.
Qed.

(** C2, as amended: after a load, the segment of every consecutive pair of
    a track's normalised points carries as [overlapCount] the number of
    distinct track ids found in the 3x3 block of cells around its
    midpoint, and that count is at least 1 whenever the two end points are
    at most [2 * GRID_CELL_SIZE] apart in each coordinate. *)
Theorem overlap_count_of_close_points activities st track j p1 p2 :
  let st' := loadActivities activities st in
  track ∈ allTracksData st' →
  Track.translatedPoints track !! j = Some p1 →
  Track.translatedPoints track !! S j = Some p2 →
  ∃ segment,
    Track.segmentsWithOverlap track !! j = Some segment
    ∧ Segment.p1 segment = p1 ∧ Segment.p2 segment = p2
    ∧ Segment.overlapCount segment
      = size (uniqueTrackInternalIdsInVicinity (pointPresenceGrid st')
                (Zfloor ((Point.x p1 + Point.x p2) / 2 / GRID_CELL_SIZE))
                (Zfloor ((Point.y p1 + Point.y p2) / 2 / GRID_CELL_SIZE)))
    ∧ (Rabs (Point.x p2 - Point.x p1) <= 2 * GRID_CELL_SIZE →
       Rabs (Point.y p2 - Point.y p1) <= 2 * GRID_CELL_SIZE →
       (1 <= Segment.overlapCount segment)%nat).
Proof.
  intros st'. subst st'.
  rewrite loadActivities_grid, loadActivities_tracks.
  intros (track0 & -> & Hin)%list_elem_of_fmap.
  rewrite calculateTrackOverlaps_points, calculateTrackOverlaps_segments.
  intros H1 H2. eexists. split; [by apply segmentsOf_lookup |].
  simpl. split_and!; try done.
  intros Hx Hy. unfold getOverlapCountForPoint.
  apply (size_pos_of_elem _ (Track.internalId track0)).
  apply elem_of_vicinity. exists track0. split; [done |]. split; [done |].
  exists p1. split; [by eapply list_elem_of_lookup_2 |].
  apply Rabs_le_between in Hx, Hy.
  split; apply gridCoord_close, Rabs_le; simpl; lra.
Qed.

Lemma overlap_count_of_close_points_witness :
  ∃ segment,
    Track.segmentsWithOverlap
      (calculateTrackOverlaps
         (gridOfTracks [trackForOverlap sampleRunStream 0] ∅)
         (trackForOverlap sampleRunStream 0)) !! 0%nat = Some segment
    ∧ Segment.p1 segment = Point.mk 0 0
    ∧ Segment.p2 segment = Point.mk 10 (-5)
    ∧ (1 <= Segment.overlapCount segment)%nat.
Proof.
  destruct (overlap_count_of_close_points sampleRunActivities
              (initialAppState 800 600)
              (calculateTrackOverlaps
                 (gridOfTracks [trackForOverlap sampleRunStream 0] ∅)
                 (trackForOverlap sampleRunStream 0))
              0%nat (Point.mk 0 0) (Point.mk 10 (-5)))
    as (segment & Hseg & Hp1 & Hp2 & _ & Hcount).
  - rewrite loadActivities_tracks. apply list_elem_of_here.
  - simpl. f_equal. unfold translateScale, GLOBAL_SCALE. simpl.
    f_equal; lra.
  - simpl. f_equal. unfold translateScale, GLOBAL_SCALE. simpl.
    f_equal; lra.
  - exists segment. split_and!; try done.
    apply Hcount; apply Rabs_le; simpl;
      unfold GRID_CELL_SIZE, OVERLAP_PROXIMITY_ABSTRACT; lra.
Defined.

(** The claim that every segment of a loaded dataset has
    [overlapCount >= 1] fails for a segment whose end points are 100 units
    apart: its midpoint is in cell (5, 0), the track's only points are in
    cells (0, 0) and (10, 0), and the 3x3 block around (5, 0) holds no
    track id. *)
Lemma long_segment_overlap_count_zero :
  ¬ (∀ track segment,
       track ∈ allTracksData
                 (loadActivities longSegmentActivities (initialAppState 800 600)) →
       segment ∈ Track.segmentsWithOverlap track →
       (1 <= Segment.overlapCount segment)%nat).
Proof.
  intros Hclaim. rewrite loadActivities_tracks in Hclaim.
  set (track0 := trackForOverlap
                   (StreamData.mk (sampleActivity 7 "Ride")
                      [(0, 0); (0, 0.002)] None None) 0).
  change (loadedTracks longSegmentActivities) with [track0] in Hclaim.
  set (grid := gridOfTracks [track0] ∅) in Hclaim.
  set (p1 := translateScale (LatLon.mk 0 0) (LatLon.mk 0 0)).
  set (p2 := translateScale (LatLon.mk 0 0) (LatLon.mk 0 0.002)).
  specialize (Hclaim (calculateTrackOverlaps grid track0)
                (Segment.mk p1 p2
                   (getOverlapCountForPoint grid (midpointOf p1 p2) 0))).
  assert (gridCoord (Point.x p1) = 0%Z) as Hp1
    by (apply gridCoord_eq; simpl;
        unfold GLOBAL_SCALE, GRID_CELL_SIZE, OVERLAP_PROXIMITY_ABSTRACT; lra).
  assert (gridCoord (Point.x p2) = 10%Z) as Hp2
    by (apply gridCoord_eq; simpl;
        unfold GLOBAL_SCALE, GRID_CELL_SIZE, OVERLAP_PROXIMITY_ABSTRACT; lra).
  assert (gridCoord (Point.x (midpointOf p1 p2)) = 5%Z) as Hmid
    by (apply gridCoord_eq; simpl;
        unfold GLOBAL_SCALE, GRID_CELL_SIZE, OVERLAP_PROXIMITY_ABSTRACT; lra).
  assert (getOverlapCountForPoint grid (midpointOf p1 p2) 0 = 0%nat) as Hzero.
  { unfold getOverlapCountForPoint. rewrite Hmid.
    apply size_empty_iff. intros i. split; [| by intros ?%elem_of_empty].
    intros (track & Hin & _ & p & Hp & Hx & _)%elem_of_vicinity.
    apply list_elem_of_singleton in Hin as ->.
    change (Track.translatedPoints track0) with [p1; p2] in Hp.
    apply elem_of_cons in Hp as [-> | Hp];
      [| apply list_elem_of_singleton in Hp as ->]; lia. }
  rewrite Hzero in Hclaim.
  assert (1 <= 0)%nat; [| lia].
  apply (Hclaim (list_elem_of_here _ _)).
  rewrite calculateTrackOverlaps_segments.
  change (Track.translatedPoints track0) with [p1; p2].
  simpl. rewrite Hzero. apply list_elem_of_here.
Qed.

(** ** The style mapper *)

Lemma clamp01_mono u v : u <= v → Rmin 1 (Rmax 0 u) <= Rmin 1 (Rmax 0 v).
Proof.
  intros Huv. unfold Rmin, Rmax.
  repeat (destruct (Rle_dec _ _)); lra.
Qed.

Lemma thicknessRatioOf_mono (count1 count2 : nat) :
  (count1 <= count2)%nat → thicknessRatioOf count1 <= thicknessRatioOf count2.
Proof.
  intros Hle%le_INR. unfold thicknessRatioOf.
  unfold MIN_OVERLAPS_FOR_EFFECT_START, MAX_OVERLAPS_FOR_FULL_EFFECT.
  destruct (Rlt_dec 2 5); [| lra].
  apply clamp01_mono. lra.
Qed.

Lemma colorRatioOf_mono (count1 count2 : nat) :
  (count1 <= count2)%nat → colorRatioOf count1 <= colorRatioOf count2.
Proof.
  intros Hle%le_INR. unfold colorRatioOf.
  unfold colorFadeStartReferenceCount, MAX_OVERLAPS_FOR_FULL_EFFECT.
  destruct (Rlt_dec 1 5); [| lra].
  apply clamp01_mono. lra.
Qed.

Lemma segmentThickness_overlap (count : nat) :
  (1 < count)%nat →
  segmentThickness count
  = Rmin MAX_OVERLAP_THICKNESS
      (Rmax MIN_OVERLAP_THICKNESS_START
         (MIN_OVERLAP_THICKNESS_START +
          thicknessRatioOf count *
            (MAX_OVERLAP_THICKNESS - MIN_OVERLAP_THICKNESS_START))).
Proof.
  intros H. unfold segmentThickness.
  by destruct (Nat.leb_spec count 1); [lia |].
Qed.

Lemma redChannel_overlap (count : nat) :
  (1 < count)%nat →
  redChannel (segmentColorRGB count) = colorRatioOf count.
Proof.
  intros H. unfold segmentColorRGB.
  destruct (Nat.leb_spec count 1); [lia |].
  unfold redChannel, lerpChannel. simpl. lra.
Qed.

(** C4: above the no-overlap case the style mapping is monotonic: for
    counts [1 < count1 < count2 <= MAX_OVERLAPS_FOR_FULL_EFFECT] the
    thickness and the red channel of [count1] are at most those of
    [count2]. *)
Theorem style_mapping_monotonic (count1 count2 : nat) :
  (1 < count1)%nat → (count1 < count2)%nat →
  INR count2 <= MAX_OVERLAPS_FOR_FULL_EFFECT →
  segmentThickness count1 <= segmentThickness count2
  ∧ redChannel (segmentColorRGB count1) <= redChannel (segmentColorRGB count2).
Proof.
  intros H1 H12 _. split.
  - rewrite !segmentThickness_overlap by lia.
    pose proof (thicknessRatioOf_mono count1 count2 ltac:(lia)) as Hr.
    unfold MAX_OVERLAP_THICKNESS, MIN_OVERLAP_THICKNESS_START.
    minmax_lra.
  - rewrite !redChannel_overlap by lia.
    apply colorRatioOf_mono. lia.
Qed.

Lemma style_mapping_monotonic_witness :
  segmentThickness 2 <= segmentThickness 4
  ∧ redChannel (segmentColorRGB 2) <= redChannel (segmentColorRGB 4).
Proof.
  apply (style_mapping_monotonic 2 4); [lia | lia |].
  unfold MAX_OVERLAPS_FOR_FULL_EFFECT. simpl. lra.
Defined.

(** The values of the mapping at the two ends of the ramp. *)
Example segmentThickness_2 : segmentThickness 2 = 4.
Proof.
  rewrite segmentThickness_overlap by lia. unfold thicknessRatioOf.
  unfold MIN_OVERLAPS_FOR_EFFECT_START, MAX_OVERLAPS_FOR_FULL_EFFECT,
    MAX_OVERLAP_THICKNESS, MIN_OVERLAP_THICKNESS_START.
  destruct (Rlt_dec 2 5); [| lra]. simpl.
  minmax_lra.
Qed.

Example segmentThickness_5 : segmentThickness 5 = 20.
Proof.
  rewrite segmentThickness_overlap by lia. unfold thicknessRatioOf.
  unfold MIN_OVERLAPS_FOR_EFFECT_START, MAX_OVERLAPS_FOR_FULL_EFFECT,
    MAX_OVERLAP_THICKNESS, MIN_OVERLAP_THICKNESS_START.
  destruct (Rlt_dec 2 5); [| lra]. simpl.
  minmax_lra.
Qed.

(** ** The view transform *)

(** What the shader's matrices come to: the renderer draws the world point
    [(x, y)] at the pixel [((x + panX) * scale, (y + panY) * scale)]. *)
Lemma worldToScreen_eq width height vs p :
  width ≠ 0 → height ≠ 0 →
  worldToScreen width height vs p
  = ((Point.x p + ViewState.panX vs) * ViewState.scale vs,
     (Point.y p + ViewState.panY vs) * ViewState.scale vs).
Proof.
  intros Hw Hh.
  unfold worldToScreen, canvasPixelOf, vertexShader, projectionMatrix,
    viewMatrix, mat4MulVec4, mat4At.
  simpl. f_equal; field; done.
Qed.

(** The interaction handlers agree among themselves: [screenToWorld]
    inverts the map [x * scale + panX] that the pan formulas of the wheel
    handler and of [resetViewAndFitTracks] solve for. *)
Lemma screenToWorld_of_scaled_plus_pan vs x y :
  ViewState.scale vs ≠ 0 →
  screenToWorld vs (x * ViewState.scale vs + ViewState.panX vs)
                   (y * ViewState.scale vs + ViewState.panY vs)
  = Point.mk x y.
Proof.
  intros Hs. unfold screenToWorld. f_equal; field; done.
Qed.

(** Through the view matrix of the renderer the round trip is off by
    [pan - pan / scale]. *)
Lemma screenToWorld_worldToScreen width height vs p :
  width ≠ 0 → height ≠ 0 → ViewState.scale vs ≠ 0 →
  (let '(sx, sy) := worldToScreen width height vs p in screenToWorld vs sx sy)
  = Point.mk
      (Point.x p + (ViewState.panX vs - ViewState.panX vs / ViewState.scale vs))
      (Point.y p + (ViewState.panY vs - ViewState.panY vs / ViewState.scale vs)).
Proof.
  intros Hw Hh Hs. rewrite worldToScreen_eq by done.
  unfold screenToWorld. f_equal; field; done.
Qed.

Lemma clamp_zoom_scale s : 0.01 <= s <= 100 → Rmax 0.01 (Rmin s 100) = s.
Proof.
  intros H. minmax_lra.
Qed.

(** The view after one wheel step towards the user at the canvas corner,
    from the default view of an 800x600 canvas. *)
Lemma viewState_after_wheel :
  viewState (onWheel (-1) 0 0 (initialAppState 800 600))
  = ViewState.mk 0 0 1.1 440 330.
Proof.
  unfold onWheel, zoomAtPoint, zoomFactor. simpl.
  destruct (Rlt_dec (-1) 0); [| lra].
  replace (1 * 1.1) with 1.1 by lra.
  rewrite clamp_zoom_scale by lra.
  f_equal; lra.
Qed.

(** C5 (the code departs from it): in the view reached by one wheel step
    (scale 1.1, pan (440, 330)) the renderer draws the world origin at
    pixel (484, 363), and [screenToWorld] takes that pixel to (40, 30),
    not back to (0, 0). *)
Theorem round_trip_off_after_zoom :
  let vs := viewState (onWheel (-1) 0 0 (initialAppState 800 600)) in
  worldToScreen 800 600 vs (Point.mk 0 0) = (484, 363)
  ∧ screenToWorld vs 484 363 = Point.mk 40 30
  ∧ screenToWorld vs 484 363 ≠ Point.mk 0 0.
Proof.
  intros vs. subst vs. rewrite viewState_after_wheel.
  assert (screenToWorld (ViewState.mk 0 0 1.1 440 330) 484 363
          = Point.mk 40 30) as Hback
    by (unfold screenToWorld; simpl; f_equal; lra).
  split_and!.
  - rewrite worldToScreen_eq by lra. simpl. f_equal; lra.
  - done.
  - rewrite Hback. intros [= H _]. lra.
Qed.

(** The wheel handler keeps the anchor fixed in the handlers' own
    convention: the pixel under the cursor converts to the same world
    point before and after. *)
Lemma zoomAtPoint_screenToWorld scaleAmount mouseX mouseY vs :
  ViewState.scale vs ≠ 0 →
  screenToWorld (zoomAtPoint scaleAmount mouseX mouseY vs) mouseX mouseY
  = screenToWorld vs mouseX mouseY.
Proof.
  intros Hs. unfold screenToWorld, zoomAtPoint. simpl.
  set (s' := Rmax 0.01 (Rmin (ViewState.scale vs * scaleAmount) 100)).
  assert (0.01 <= s') as Hs' by apply Rmax_l.
  f_equal; field; split; lra.
Qed.

(** C6 (the code departs from it): with the default view of an 800x600
    canvas and the cursor at pixel (0, 0), the world point under the
    cursor is (-400, -300) and is drawn at (0, 0); after one wheel step
    the renderer draws that point at (44, 33). *)
Theorem zoom_anchor_moves_on_screen :
  let st := initialAppState 800 600 in
  let w := screenToWorld (viewState st) 0 0 in
  w = Point.mk (-400) (-300)
  ∧ worldToScreen 800 600 (viewState st) w = (0, 0)
  ∧ worldToScreen 800 600 (viewState (onWheel (-1) 0 0 st)) w = (44, 33).
Proof.
  intros st w. subst w st. rewrite viewState_after_wheel.
  assert (screenToWorld (viewState (initialAppState 800 600)) 0 0
          = Point.mk (-400) (-300)) as ->
    by (unfold screenToWorld; simpl; f_equal; lra).
  split_and!; [done | |]; rewrite worldToScreen_eq by lra; simpl;
    f_equal; lra.
Qed.

(** ** The picker *)

Lemma squares_zero u v : u ^ 2 + v ^ 2 = 0 → u = 0 ∧ v = 0.
Proof. intros H. split; nra. Qed.

Lemma distancePointToSegment_defined p a b :
  ∃ dist, distancePointToSegment p a b = Some dist ∧ 0 <= dist.
Proof.
  unfold distancePointToSegment, checkedDiv.
  destruct (Req_dec_T _ 0) as [Hz | Hnz].
  - eexists. split; [done | apply sqrt_pos].
  - simpl. eexists. split; [done | apply sqrt_pos].
Qed.


(** C10: [distancePointToSegment] is total: it returns a distance, which
    is not negative, for every point and segment, so the division by [l2]
    is never reached with [l2 = 0]; for a segment whose end points
    coincide it returns the Euclidean distance to that end point. *)
Theorem distancePointToSegment_total p a b :
  (∃ dist, distancePointToSegment p a b = Some dist ∧ 0 <= dist)
  ∧ distancePointToSegment p a a
    = Some (sqrt ((Point.x p - Point.x a) ^ 2 + (Point.y p - Point.y a) ^ 2)).
Proof.
  split; [apply distancePointToSegment_defined |].
  unfold distancePointToSegment.
  destruct (Req_dec_T _ 0) as [Hz | Hnz]; [done |].
  exfalso. apply Hnz. ring.
Qed.

Lemma clamp01_id t : 0 <= t <= 1 → Rmax 0 (Rmin 1 t) = t.
Proof.
  intros H. minmax_lra.
Qed.


(** *** One scan of the buffer

    The click, already in world coordinates, and the tolerance are fixed
    during the loop. *)
Section Scan.
Context (st : AppState) (click : Point.t) (tol : R).




End Scan.

Lemma elem_of_loopIndices i n :
  i ∈ loopIndices n ↔ (∃ k, i = 2 * k)%nat ∧ (i < n)%nat.
Proof.
  unfold loopIndices. rewrite list_elem_of_fmap.
  setoid_rewrite elem_of_seq.
  assert (∀ k, (k < Nat.div2 (S n) ↔ 2 * k < n)%nat) as Hdiv.
  { intros k. pose proof (Nat.div2_odd (S n)) as Hodd.
    destruct (Nat.odd (S n)); unfold Nat.b2n in Hodd; lia. }
  split.
  - intros (k & -> & _ & Hk). split; [by exists k |]. apply Hdiv. lia.
  - intros [(k & ->) Hlt]. exists k. split; [done |].
    apply Hdiv in Hlt. lia.
Qed.



Lemma lookup_flat_map_chunk {A B : Type} (f : A → list B) (c : nat)
    (l : list A) (k r : nat) (a : A) :
  (∀ a', length (f a') = c) → l !! k = Some a → (r < c)%nat →
  flat_map f l !! (k * c + r)%nat = f a !! r.
Proof.
  intros Hlen. revert k. induction l as [|a' l IH]; intros k Hk Hr; [done |].
  cbn [flat_map]. destruct k as [|k].
  - injection Hk as ->. rewrite lookup_app_l by (rewrite Hlen; lia). done.
  - rewrite lookup_app_r by (rewrite Hlen; lia).
    rewrite Hlen. replace (S k * c + r - c)%nat with (k * c + r)%nat by lia.
    by apply IH.
Qed.

(** The picker reads back from the buffer of [prepareDataForWebGL] the
    visible segments, one per iteration, each with its track's id. *)
Lemma readSegment_buffersOfSegments visible k track segment :
  visible !! k = Some (track, segment) →
  readSegment (buffersOfSegments visible) (2 * k)
  = (Some (Segment.p1 segment, Segment.p2 segment), Some (Track.id track)).
Proof.
  intros Hk. pose proof (lookup_lt_Some _ _ _ Hk) as Hlt.
  unfold readSegment, buffersOfSegments.
  cbn [Buffers.positions Buffers.indices Buffers.segmentTrackIds].
  rewrite !lookup_seq_lt by lia. cbn [mbind option_bind]. cbn [Nat.add].
  replace ((2 * k) * 2)%nat with (k * 4 + 0)%nat by lia.
  replace ((2 * k + 1) * 2)%nat with (k * 4 + 2)%nat by lia.
  replace (k * 4 + 0 + 1)%nat with (k * 4 + 1)%nat by lia.
  replace (k * 4 + 2 + 1)%nat with (k * 4 + 3)%nat by lia.
  rewrite !(lookup_flat_map_chunk positionsOf 4 visible k _ (track, segment))
    by (done || lia).
  replace (2 * k)%nat with (k * 2 + 0)%nat by lia.
  rewrite (lookup_flat_map_chunk trackIdsOf 2 visible k _ (track, segment))
    by (done || lia).
  simpl. by destruct (Segment.p1 segment), (Segment.p2 segment).
Qed.

(** A segment is skipped exactly when its track has metadata whose type is
    not active in the filter. *)
Lemma filteredOut_true metadata filters tid :
  filteredOut metadata filters (Some tid) = true
  ↔ ∃ trackMeta, metadata !! tid = Some trackMeta
      ∧ filterActive filters (TrackMeta.type trackMeta) = false.
Proof.
  unfold filteredOut. simpl. destruct (metadata !! tid) as [trackMeta|].
  - rewrite negb_true_iff. split; [by exists trackMeta | by intros (? & [= <-] & ?)].
  - split; [done | by intros (? & [=] & _)].
Qed.

(** Once the scan has matched a track with a non-zero id, the handler
    shows the popup of that track's metadata. *)
Lemma handleCanvasClickForPopup_shows st clickX_screen clickY_screen tid info :
  isPanning st = false →
  Buffers.positions (webGLTrackBuffers st) ≠ [] →
  BestMatch.trackId (pickAt st clickX_screen clickY_screen) = Some tid →
  tid ≠ 0%Z →
  activityMetadata st !! tid = Some info →
  handleCanvasClickForPopup clickX_screen clickY_screen st = ShowPopup info.
Proof.
  intros Hpan Hbuf Hbest Htid Hinfo. unfold handleCanvasClickForPopup.
  rewrite Hpan, Hbest, Hinfo.
  destruct (Buffers.positions (webGLTrackBuffers st)); [done |]. simpl.
  by destruct (Z.eqb_spec tid 0).
Qed.


(** *** The scan against its description *)

Lemma clampToUnit_eq s : clampToUnit s = Rmax 0 (Rmin 1 s).
Proof.
  unfold clampToUnit. repeat (destruct (Rlt_dec _ _)); minmax_lra.
Qed.

(** The value computed by [distancePointToSegment] is the distance to the
    clamped orthogonal projection, and nothing else is. *)
Lemma distancePointToSegment_clampedProjection p a b dist :
  distancePointToSegment p a b = Some dist
  ↔ isClampedProjectionDistance p a b dist.
Proof.
  destruct p as [px py], a as [ax ay], b as [bx by'].
  unfold isClampedProjectionDistance, isProjectionParameter,
    euclideanDistance, pointOnSegment, distancePointToSegment, checkedDiv.
  cbn [Point.x Point.y]. setoid_rewrite clampToUnit_eq.
  destruct (Req_dec_T _ 0) as [Hz | Hnz].
  - apply squares_zero in Hz as [Hx Hy].
    assert (bx - ax = 0) as Hbx by lra. assert (by' - ay = 0) as Hby by lra.
    split.
    + intros Hd. apply (inj Some) in Hd. subst dist. exists 0.
      rewrite Hbx, Hby. split; [ring |]. f_equal. ring.
    + intros (s & _ & ->). rewrite Hbx, Hby. f_equal. f_equal. ring.
  - set (l2 := (ax - bx) ^ 2 + (ay - by') ^ 2) in *.
    set (dot := (px - ax) * (bx - ax) + (py - ay) * (by' - ay)).
    split.
    + intros Hd. apply (inj Some) in Hd. subst dist. exists (dot / l2).
      split; [| done]. subst l2 dot. field. done.
    + intros (s & Horth & ->).
      assert (s * l2 = dot) as Hs.
      { apply Rminus_diag_uniq_sym. rewrite <- Horth. subst l2 dot. ring. }
      assert (s = dot / l2) as -> by (rewrite <- Hs; field; done).
      done.
Qed.






(** The distance from a point above or below a level segment. *)
Lemma distancePointToSegment_level px py x1 x2 y dist :
  x1 < x2 → x1 <= px <= x2 → Rabs (py - y) = dist →
  distancePointToSegment (Point.mk px py) (Point.mk x1 y) (Point.mk x2 y)
  = Some dist.
Proof.
  intros Hlt Hpx <-. unfold distancePointToSegment, checkedDiv.
  cbn [Point.x Point.y].
  destruct (Req_dec_T _ 0) as [Hz | Hnz];
    [apply squares_zero in Hz as [Hz _]; lra |].
  cbn [mbind option_bind]. f_equal.
  replace (((px - x1) * (x2 - x1) + (py - y) * (y - y))
           / ((x1 - x2) ^ 2 + (y - y) ^ 2))
    with ((px - x1) / (x2 - x1)) by (field; lra).
  assert (0 <= (px - x1) / (x2 - x1) <= 1) as Hunit.
  { split.
    - apply Rmult_le_pos; [lra |]. apply Rlt_le, Rinv_0_lt_compat. lra.
    - apply Rmult_le_reg_r with (x2 - x1); [lra |].
      replace ((px - x1) / (x2 - x1) * (x2 - x1)) with (px - x1)
        by (field; lra).
      lra. }
  rewrite clamp01_id by done.
  replace (px - (x1 + (px - x1) / (x2 - x1) * (x2 - x1))) with 0
    by (field; lra).
  replace (py - (y + (px - x1) / (x2 - x1) * (y - y))) with (py - y)
    by (field; lra).
  replace (0 ^ 2 + (py - y) ^ 2) with ((py - y)²) by (unfold Rsqr; ring).
  apply sqrt_Rsqr_abs.
Qed.



(** ** The render buffer *)

Lemma fold_pushSegment track segments buf currentIndex :
  fold_left (pushSegment track) segments (buf, currentIndex)
  = (Buffers.mk
       (Buffers.positions buf ++ flat_map positionsOf (map (pair track) segments))
       (Buffers.colors buf ++ flat_map colorsOf (map (pair track) segments))
       (Buffers.thicknesses buf
          ++ flat_map thicknessesOf (map (pair track) segments))
       (Buffers.indices buf ++ seq currentIndex (2 * length segments))
       (Buffers.segmentTrackIds buf
          ++ flat_map trackIdsOf (map (pair track) segments)),
     (currentIndex + 2 * length segments)%nat).
Proof.
  revert buf currentIndex.
  induction segments as [|segment segments IH]; intros buf n.
  - simpl. rewrite !app_nil_r, Nat.add_0_r. by destruct buf.
  - cbn [fold_left]. unfold pushSegment at 2.
    destruct (segmentColorRGB (Segment.overlapCount segment))
      as [[r g] b] eqn:Hc.
    rewrite IH. cbn [Buffers.positions Buffers.colors Buffers.thicknesses
      Buffers.indices Buffers.segmentTrackIds map flat_map length].
    unfold colorsOf at 2. cbn [snd]. rewrite Hc.
    rewrite <- !app_assoc.
    replace (2 * S (length segments))%nat
      with (S (S (2 * length segments))) by lia.
    cbn [seq]. replace (S (S n)) with (n + 2)%nat by lia.
    replace (S n) with (n + 1)%nat by lia.
    f_equal. lia.
Qed.

Lemma fold_prepareTrack filters tracks buf currentIndex :
  fold_left (prepareTrack filters) tracks (buf, currentIndex)
  = (Buffers.mk
       (Buffers.positions buf
          ++ flat_map positionsOf (visibleSegments filters tracks))
       (Buffers.colors buf
          ++ flat_map colorsOf (visibleSegments filters tracks))
       (Buffers.thicknesses buf
          ++ flat_map thicknessesOf (visibleSegments filters tracks))
       (Buffers.indices buf
          ++ seq currentIndex (2 * length (visibleSegments filters tracks)))
       (Buffers.segmentTrackIds buf
          ++ flat_map trackIdsOf (visibleSegments filters tracks)),
     (currentIndex + 2 * length (visibleSegments filters tracks))%nat).
Proof.
  revert buf currentIndex.
  induction tracks as [|track tracks IH]; intros buf n.
  - simpl. rewrite !app_nil_r, Nat.add_0_r. by destruct buf.
  - cbn [fold_left]. unfold prepareTrack at 2.
    unfold visibleSegments. cbn [flat_map]. fold (visibleSegments filters tracks).
    destruct (filterActive filters (Track.type track)); cbn [negb].
    + rewrite fold_pushSegment, IH.
      cbn [Buffers.positions Buffers.colors Buffers.thicknesses
        Buffers.indices Buffers.segmentTrackIds].
      rewrite !flat_map_app, length_app, <- !app_assoc.
      replace (2 * (length (map (pair track) (Track.segmentsWithOverlap track))
                    + length (visibleSegments filters tracks)))%nat
        with (2 * length (Track.segmentsWithOverlap track)
              + 2 * length (visibleSegments filters tracks))%nat
        by (rewrite length_map; lia).
      rewrite seq_app, ?length_map. f_equal. lia.
    + by rewrite IH.
Qed.

(** [prepareDataForWebGL] builds the buffer of the visible segments. *)
Lemma buildBuffers_visibleSegments filters tracks :
  buildBuffers filters tracks = buffersOfSegments (visibleSegments filters tracks).
Proof. unfold buildBuffers. by rewrite fold_prepareTrack. Qed.

Lemma filterActive_insert_false type filters type' :
  filterActive (<[type := false]> filters) type'
  = bool_decide (type' ≠ type) && filterActive filters type'.
Proof.
  unfold filterActive. destruct (decide (type = type')) as [<- | Hne].
  - rewrite lookup_insert_eq. by rewrite bool_decide_eq_false_2 by naive_solver.
  - rewrite lookup_insert_ne by done.
    by rewrite bool_decide_eq_true_2 by naive_solver.
Qed.

Lemma visibleSegments_disable type filters tracks :
  visibleSegments (<[type := false]> filters) tracks
  = filter (λ ts, Track.type (fst ts) ≠ type) (visibleSegments filters tracks).
Proof.
  induction tracks as [|track tracks IH]; [done |].
  unfold visibleSegments in *. cbn [flat_map].
  rewrite filter_app, <- IH, filterActive_insert_false. f_equal.
  destruct (filterActive filters (Track.type track));
    [| by rewrite andb_false_r].
  rewrite andb_true_r.
  induction (Track.segmentsWithOverlap track) as [|segment segments IHs].
  - by case_bool_decide.
  - cbn [map]. rewrite filter_cons. cbn [fst].
    case_bool_decide; case_decide; try done; by rewrite <- IHs.
Qed.

(** C8: a filter change rebuilds the buffer and nothing else.  Disabling
    [type] leaves every track, with its stored per-segment overlap
    counts, and the overlap grid as they were; the rebuilt buffer is the
    buffer of the segments that were visible, without those of the tracks
    of that type. *)
Theorem filter_change_only_alters_visibility type st :
  let visible :=
    visibleSegments (activeActivityFilters st) (allTracksData st) in
  let st' := onFilterChange type false st in
  allTracksData st' = allTracksData st
  ∧ pointPresenceGrid st' = pointPresenceGrid st
  ∧ webGLTrackBuffers (prepareDataForWebGL st) = buffersOfSegments visible
  ∧ webGLTrackBuffers st'
    = buffersOfSegments (filter (λ ts, Track.type (fst ts) ≠ type) visible).
Proof.
  intros visible st'. subst visible st'.
  unfold onFilterChange, prepareDataForWebGL. simpl.
  rewrite !buildBuffers_visibleSegments.
  by rewrite visibleSegments_disable.
Qed.

(** *** The filters after a load: every loaded type is visible *)

Lemma forEachFrom_processStream_types l k st :
  activityTypes (forEachFrom processStream k l st)
  = activityTypes st ∪ list_to_set (map Track.type (tracksFrom k l)).
Proof.
  revert k st. induction l as [|entry l IH]; intros k st; simpl.
  - set_solver.
  - rewrite IH. unfold processStream.
    destruct (length (StreamData.latlngStream entry) <? 2)%nat; simpl;
      set_solver.
Qed.

Lemma forEachFrom_processStream_filters l k st :
  activeActivityFilters (forEachFrom processStream k l st)
  = activeActivityFilters st.
Proof.
  revert k st. induction l as [|entry l IH]; intros k st; simpl; [done |].
  rewrite IH. unfold processStream.
  by destruct (length (StreamData.latlngStream entry) <? 2)%nat.
Qed.

Lemma filterActive_defaults types filters type :
  filterActive (fold_left defaultToVisible types filters) type
  = match filters !! type with
    | Some b => b
    | None => bool_decide (type ∈ types)
    end.
Proof.
  revert filters. induction types as [|t types IH]; intros filters;
    cbn [fold_left].
  - unfold filterActive. destruct (filters !! type); [done |].
    by rewrite bool_decide_eq_false_2 by apply not_elem_of_nil.
  - rewrite IH. unfold defaultToVisible.
    destruct (filters !! t) as [b|] eqn:Ht.
    + destruct (filters !! type) as [b'|] eqn:Htype; [done |].
      apply bool_decide_ext. rewrite elem_of_cons.
      split; [tauto |]. intros [-> | ?]; [congruence | done].
    + destruct (decide (t = type)) as [-> | Hne].
      * rewrite lookup_insert_eq, Ht.
        by rewrite bool_decide_eq_true_2 by apply list_elem_of_here.
      * rewrite lookup_insert_ne by done.
        destruct (filters !! type); [done |].
        apply bool_decide_ext. rewrite elem_of_cons. naive_solver.
Qed.

Lemma loadActivities_filterActive activities st type :
  filterActive (activeActivityFilters (loadActivities activities st)) type
  = bool_decide (type ∈ map Track.type (loadedTracks activities)).
Proof.
  unfold loadActivities, loadedTracks, loadedStreams.
  destruct activities as [[|request requests]|]; [by simpl | | by simpl].
  destruct (resetViewAndFitTracks_frame
    (prepareDataForWebGL (calculateAllSegmentOverlaps (updateActivityToggles
      (processStravaData (resolvedStreamsOf (request :: requests))
         (clearDataset st)))))) as (_ & _ & -> & _).
  cbn [default].
  set (streams := resolvedStreamsOf (request :: requests)).
  simpl. rewrite filterActive_defaults.
  unfold processStravaData, forEach.
  rewrite forEachFrom_processStream_filters,
    forEachFrom_processStream_types.
  simpl. rewrite lookup_empty.
  apply bool_decide_ext.
  rewrite elem_of_elements, elem_of_union, elem_of_list_to_set.
  split; [by intros [[]%elem_of_empty | ?] | by right].
Qed.

(** *** Two tracks over the same two points *)

Lemma twinActivities_tracks st :
  allTracksData (loadActivities twinActivities st)
  = map (calculateTrackOverlaps (gridOfTracks (loadedTracks twinActivities) ∅))
      [Track.mk 11 0 "run"
         [translateScale (LatLon.mk 0 0) (LatLon.mk 0 0);
          translateScale (LatLon.mk 0 0) (LatLon.mk 0 0.0002)] [];
       Track.mk 12 1 "ride"
         [translateScale (LatLon.mk 0 0) (LatLon.mk 0 0);
          translateScale (LatLon.mk 0 0) (LatLon.mk 0 0.0002)] []].
Proof. by rewrite loadActivities_tracks. Qed.

(** Every segment of both tracks is classified with [overlapCount = 2]. *)
Example twin_tracks_overlap_two st :
  Forall (λ track,
    ∃ segment, Track.segmentsWithOverlap track = [segment]
               ∧ Segment.overlapCount segment = 2%nat)
    (allTracksData (loadActivities twinActivities st)).
Proof.
  rewrite twinActivities_tracks.
  set (p1 := translateScale (LatLon.mk 0 0) (LatLon.mk 0 0)).
  set (p2 := translateScale (LatLon.mk 0 0) (LatLon.mk 0 0.0002)).
  set (run := Track.mk 11 0 "run" [p1; p2] []).
  set (ride := Track.mk 12 1 "ride" [p1; p2] []).
  change (loadedTracks twinActivities) with [run; ride].
  assert (∀ track, track ∈ [run; ride] →
            ∃ p, p ∈ Track.translatedPoints track
              ∧ (-1 <= gridCoord (Point.x p)
                       - gridCoord (Point.x (midpointOf p1 p2)) <= 1)%Z
              ∧ (-1 <= gridCoord (Point.y p)
                       - gridCoord (Point.y (midpointOf p1 p2)) <= 1)%Z)
    as Hnear.
  { intros track Hin. exists p1. split.
    - apply elem_of_cons in Hin as [-> | ->%list_elem_of_singleton];
        apply list_elem_of_here.
    - rewrite !(gridCoord_eq 0) by (simpl; unfold_constants; lra). lia. }
  assert (∀ iid, getOverlapCountForPoint (gridOfTracks [run; ride] ∅)
                   (midpointOf p1 p2) iid = 2%nat) as Hcount.
  { intros iid. unfold getOverlapCountForPoint.
    assert (uniqueTrackInternalIdsInVicinity (gridOfTracks [run; ride] ∅)
              (gridCoord (Point.x (midpointOf p1 p2)))
              (gridCoord (Point.y (midpointOf p1 p2)))
            = {[ 0%nat; 1%nat ]}) as ->.
    { apply set_eq. intros i. rewrite elem_of_vicinity. split.
      - intros (track & Hin & <- & _). set_solver.
      - intros [->%elem_of_singleton | ->%elem_of_singleton]%elem_of_union.
        + exists run. split; [set_solver |]. split; [done |].
          apply Hnear. set_solver.
        + exists ride. split; [set_solver |]. split; [done |].
          apply Hnear. set_solver. }
    rewrite size_union by set_solver. by rewrite !size_singleton. }
  repeat constructor; eexists; (split; [reflexivity |]); apply Hcount.
Qed.

(** After a load every segment is visible. *)
Lemma loadActivities_all_visible activities st :
  let loaded := loadActivities activities st in
  visibleSegments (activeActivityFilters loaded) (allTracksData loaded)
  = flat_map (λ track, map (pair track) (Track.segmentsWithOverlap track))
      (allTracksData loaded).
Proof.
  intros loaded. unfold visibleSegments.
  assert (Forall (λ track,
            filterActive (activeActivityFilters loaded) (Track.type track)
            = true) (allTracksData loaded)) as Hall.
  { subst loaded. rewrite loadActivities_tracks. apply Forall_forall.
    intros track' (track & -> & Hin)%list_elem_of_fmap.
    rewrite calculateTrackOverlaps_type, loadActivities_filterActive.
    apply bool_decide_eq_true_2, list_elem_of_fmap. by exists track. }
  induction Hall as [|track tracks Htrack _ IH]; [done |].
  cbn [flat_map]. by rewrite Htrack, IH.
Qed.

(** After the load of the two tracks both are in the buffer; disabling the
    rides leaves the run's segment alone in it, and the tracks as they
    were. *)
Example twin_tracks_disable_ride st :
  let loaded := loadActivities twinActivities st in
  Buffers.segmentTrackIds (webGLTrackBuffers (prepareDataForWebGL loaded))
  = [11; 11; 12; 12]%Z
  ∧ Buffers.segmentTrackIds
      (webGLTrackBuffers (onFilterChange "ride" false loaded))
    = [11; 11]%Z
  ∧ allTracksData (onFilterChange "ride" false loaded) = allTracksData loaded.
Proof.
  intros loaded.
  unfold onFilterChange, prepareDataForWebGL.
  cbn [webGLTrackBuffers set_webGLTrackBuffers activeActivityFilters
       set_activeActivityFilters allTracksData].
  rewrite !buildBuffers_visibleSegments, visibleSegments_disable.
  subst loaded. rewrite loadActivities_all_visible, twinActivities_tracks.
  cbn [map flat_map].
  rewrite !calculateTrackOverlaps_segments.
  cbn [segmentsOf Track.translatedPoints Track.internalId map app].
  rewrite !filter_cons, filter_nil. cbn [fst].
  rewrite !calculateTrackOverlaps_type. cbn [Track.type].
  rewrite decide_True by done. rewrite decide_False by (by intros []).
  cbn [buffersOfSegments Buffers.segmentTrackIds flat_map trackIdsOf fst app].
  by rewrite !calculateTrackOverlaps_id.
Qed.

(** ** Loading: failures of single activities *)

Lemma streamPromise_spec request :
  streamPromise request
  = if streamResolved request then
      match snd request with
      | ResponseJson (Some data) time distance =>
          Some (StreamData.mk (fst request) data time distance)
      | _ => None
      end
    else None.
Proof.
  destruct request as [activity fetched].
  unfold streamResolved, streamPromise. simpl.
  destruct (ActivityInfo.summary_polyline activity) as [polyline|]; [| done].
  destruct (bool_decide (polyline = EmptyString));
    by destruct fetched as [| | [data|] time dist].
Qed.

Lemma streamPromise_None request :
  streamPromise request = None ↔ streamResolved request = false.
Proof.
  rewrite streamPromise_spec. destruct request as [activity fetched].
  unfold streamResolved. simpl.
  destruct (ActivityInfo.summary_polyline activity) as [polyline|]; [| done].
  destruct fetched as [| | [data|] time dist]; try done.
  by destruct (bool_decide (polyline = EmptyString)).
Qed.

Lemma tracksFrom_ids k requests :
  map Track.id (tracksFrom k (resolvedStreamsOf requests))
  = map (λ request, ActivityInfo.id (fst request))
      (filter (λ request, yieldsTrack request) requests).
Proof.
  revert k. induction requests as [|request requests IH]; intros k; [done |].
  unfold resolvedStreamsOf in *. cbn [omap list_omap].
  rewrite filter_cons, streamPromise_spec. unfold yieldsTrack.
  destruct (streamResolved request); simpl; [| by rewrite IH].
  destruct request as [activity [| | [data|] time dist]]; simpl;
    try (by rewrite IH).
  destruct data as [|point1 [|point2 data]]; simpl; by rewrite IH.
Qed.

Lemma loadedStreams_activities activities :
  map StreamData.activityInfo (loadedStreams activities)
  = map fst (filter (λ request, streamResolved request) (default [] activities)).
Proof.
  unfold loadedStreams, resolvedStreamsOf.
  induction (default [] activities) as [|request requests IH]; [done |].
  cbn [omap list_omap]. rewrite filter_cons, streamPromise_spec.
  destruct (streamResolved request) eqn:Hres; simpl; [| done].
  destruct request as [activity [| | [data|] time dist]]; simpl;
    try (unfold streamResolved in Hres; simpl in Hres;
         by destruct (ActivityInfo.summary_polyline activity)).
  by rewrite IH.
Qed.

(** C9, as amended: a load produces tracks, in order, for exactly the
    activities that have a summary polyline and whose stream request
    succeeded with [latlng] data of at least two points.  A skipped or
    failed request and a response without [latlng] data give a null entry,
    which is filtered out before [processStravaData]; a stream of fewer
    than two points is dropped inside it.  Every track produced is
    classified: it carries the segments of its consecutive points. *)
Theorem load_isolates_failures activities st :
  let requests := default [] activities in
  let st' := loadActivities activities st in
  (∀ request, streamPromise request = None ↔ streamResolved request = false)
  ∧ map StreamData.activityInfo (loadedStreams activities)
    = map fst (filter (λ request, streamResolved request) requests)
  ∧ map Track.id (allTracksData st')
    = map (λ request, ActivityInfo.id (fst request))
        (filter (λ request, yieldsTrack request) requests)
  ∧ Forall (λ track,
       Track.segmentsWithOverlap track
       = segmentsOf (pointPresenceGrid st') (Track.internalId track)
           (Track.translatedPoints track)) (allTracksData st').
Proof.
  intros requests st'. subst requests st'. split_and!.
  - intros request. apply streamPromise_None.
  - apply loadedStreams_activities.
  - rewrite loadActivities_tracks, map_map.
    erewrite map_ext; [| intros track; apply calculateTrackOverlaps_id].
    apply tracksFrom_ids.
  - rewrite loadActivities_grid, loadActivities_tracks.
    apply Forall_forall. intros track' (track & -> & _)%list_elem_of_fmap.
    by rewrite calculateTrackOverlaps_segments,
      calculateTrackOverlaps_internalId, calculateTrackOverlaps_points.
Qed.

(** With one fetch of three failing, the other two activities give the
    two tracks. *)
Example load_three_activities st :
  map Track.id (allTracksData (loadActivities threeActivities st))
  = [1; 3]%Z.
Proof.
  rewrite loadActivities_tracks, map_map.
  erewrite map_ext; [| intros track; apply calculateTrackOverlaps_id].
  reflexivity.
Qed.

(** The claim that tracks are produced for exactly the activities whose
    request succeeded with [latlng] data fails for a stream of a single
    point: the request succeeds, the entry is not null, and no track is
    built. *)
Lemma single_point_stream_gives_no_track :
  let st' := loadActivities singlePointActivities (initialAppState 800 600) in
  map Track.id (allTracksData st') = []
  ∧ map (λ request, ActivityInfo.id (fst request))
      (filter (λ request, fetchSucceededWithLatlng request)
         (default [] singlePointActivities)) = [9%Z]
  ∧ map Track.id (allTracksData st')
    ≠ map (λ request, ActivityInfo.id (fst request))
        (filter (λ request, fetchSucceededWithLatlng request)
           (default [] singlePointActivities)).
Proof.
  intros st'. subst st'. rewrite loadActivities_tracks. by split_and!.
Qed.

(** * The rest of the module *)

(** ** Zoom, pan and reset *)

Lemma forEachFrom_processStream_views l k st :
  viewState (forEachFrom processStream k l st) = viewState st
  ∧ initialViewState (forEachFrom processStream k l st) = initialViewState st
  ∧ canvasWidth (forEachFrom processStream k l st) = canvasWidth st
  ∧ canvasHeight (forEachFrom processStream k l st) = canvasHeight st
  ∧ webGLTrackBuffers (forEachFrom processStream k l st) = webGLTrackBuffers st
  ∧ isPanning (forEachFrom processStream k l st) = isPanning st.
Proof.
  revert k st. induction l as [|entry l IH]; intros k st; simpl; [done |].
  destruct (IH (S k) (processStream st entry k)) as (-> & -> & -> & -> & -> & ->).
  unfold processStream.
  by destruct (length (StreamData.latlngStream entry) <? 2)%nat.
Qed.

(** The views that enter [resetViewAndFitTracks] at the end of a load are
    those of the state before the load. *)
Lemma loadActivities_unfold request requests st :
  loadActivities (Some (request :: requests)) st
  = resetViewAndFitTracks
      (prepareDataForWebGL (calculateAllSegmentOverlaps (updateActivityToggles
         (processStravaData (resolvedStreamsOf (request :: requests))
            (clearDataset st))))).
Proof. reflexivity. Qed.

Lemma before_fit_views streams st :
  let st1 := prepareDataForWebGL (calculateAllSegmentOverlaps
               (updateActivityToggles (processStravaData streams (clearDataset st)))) in
  viewState st1 = viewState st
  ∧ initialViewState st1 = initialViewState st
  ∧ canvasWidth st1 = canvasWidth st
  ∧ canvasHeight st1 = canvasHeight st.
Proof.
  simpl. unfold processStravaData, forEach.
  destruct (forEachFrom_processStream_views streams 0 (clearDataset st))
    as (-> & -> & -> & -> & _).
  done.
Qed.

Lemma zoomAtPoint_scaleInRange scaleAmount mouseX mouseY vs :
  scaleInRange (zoomAtPoint scaleAmount mouseX mouseY vs).
Proof. unfold scaleInRange, zoomAtPoint. simpl. minmax_lra. Qed.

Lemma fitBounds_scale minX minY dataWidth dataHeight st :
  0.01 <= ViewState.scale (viewState (fitBounds minX minY dataWidth dataHeight st))
       <= 5.
Proof. unfold fitBounds. simpl. minmax_lra. Qed.

Lemma resetViewAndFitTracks_views st :
  viewState (resetViewAndFitTracks st) = initialViewState (resetViewAndFitTracks st).
Proof.
  unfold resetViewAndFitTracks.
  destruct (allTracksData st); [done |].
  destruct (dataBounds _) as [[[[minX maxX] minY] maxY]|]; [| done].
  by destruct (bool_decide _ && bool_decide _).
Qed.

Lemma resetViewAndFitTracks_scaleInRange st :
  scaleInRange (initialViewState st) →
  scaleInRange (viewState (resetViewAndFitTracks st)).
Proof.
  intros Hinit. unfold resetViewAndFitTracks.
  destruct (allTracksData st); [done |].
  destruct (dataBounds _) as [[[[minX maxX] minY] maxY]|]; [| done].
  destruct (bool_decide _ && bool_decide _); [done |].
  pose proof (fitBounds_scale minX minY (maxX - minX) (maxY - minY) st).
  unfold scaleInRange. lra.
Qed.

Lemma handleEvent_scaleInRange it e :
  scaleInRange (viewState (Interaction.app it)) →
  scaleInRange (initialViewState (Interaction.app it)) →
  scaleInRange (viewState (Interaction.app (handleEvent it e)))
  ∧ scaleInRange (initialViewState (Interaction.app (handleEvent it e))).
Proof.
  intros Hv Hi. destruct it as [st lastPan]. simpl in Hv, Hi.
  destruct e as [deltaY mouseX mouseY | button clientX clientY
                | clientX clientY | | | | type checked | activities]; simpl.
  - split; [apply zoomAtPoint_scaleInRange | done].
  - unfold onMouseDown. by destruct (negb (button =? 0)%Z).
  - unfold onMouseMove. simpl. by destruct (negb (isPanning st)).
  - unfold onMouseUp. simpl. by destruct (isPanning st).
  - unfold onMouseLeave, onMouseUp. simpl. by destruct (isPanning st).
  - unfold onResetView. simpl. by destruct (_ && _).
  - done.
  - destruct activities as [[|request requests]|]; try done.
    rewrite loadActivities_unfold.
    destruct (before_fit_views (resolvedStreamsOf (request :: requests)) st)
      as (Hvs & His & _).
    split.
    + apply resetViewAndFitTracks_scaleInRange. by rewrite His.
    + rewrite <- resetViewAndFitTracks_views.
      apply resetViewAndFitTracks_scaleInRange. by rewrite His.
Qed.

(** X1: whatever the user does after the page is initialised (wheel,
    drags, reset, filter changes, loads), the scale of the view and of the
    stored initial view stays within the zoom limits [0.01, 100]; in
    particular it is never 0 where the handlers divide by it. *)
Theorem scale_stays_in_zoom_limits width height events :
  let st := Interaction.app
              (handleEvents events (initialInteraction width height)) in
  0.01 <= ViewState.scale (viewState st) <= 100
  ∧ 0.01 <= ViewState.scale (initialViewState st) <= 100.
Proof.
  intros st. subst st. unfold handleEvents.
  assert (scaleInRange (viewState (Interaction.app (initialInteraction width height)))
          ∧ scaleInRange (initialViewState
                            (Interaction.app (initialInteraction width height))))
    as Hinit by (unfold scaleInRange; simpl; lra).
  revert Hinit. generalize (initialInteraction width height) as it.
  induction events as [|e events IH]; intros it [Hv Hi]; [done |].
  simpl. apply IH. by apply handleEvent_scaleInRange.
Qed.

(** X2: in exact arithmetic the two wheel steps are inverse to each other:
    a step with [deltaY < 0] followed by one with [deltaY > 0] at the same
    pixel gives back the view, as long as the first step stays within the
    zoom limits.  (The doubles of the code round every operation, so there
    the pan can come back changed in its last digits.) *)
Theorem wheel_in_then_out_restores_view mouseX mouseY st :
  0.01 <= ViewState.scale (viewState st) →
  ViewState.scale (viewState st) * zoomFactor <= 100 →
  viewState (onWheel 1 mouseX mouseY (onWheel (-1) mouseX mouseY st))
  = viewState st.
Proof.
  intros Hlo Hhi. unfold onWheel, zoomFactor in *.
  destruct (Rlt_dec (-1) 0); [| lra]. destruct (Rlt_dec 1 0); [lra |].
  simpl. destruct (viewState st) as [cx cy s px py]. simpl in *.
  unfold zoomAtPoint. simpl.
  rewrite (clamp_zoom_scale (s * 1.1)) by lra.
  replace (s * 1.1 * (1 / 1.1)) with s by (field; lra).
  rewrite (clamp_zoom_scale s) by lra.
  f_equal; field; lra.
Qed.

Lemma wheel_in_then_out_restores_view_witness :
  viewState (onWheel 1 120 80 (onWheel (-1) 120 80 (initialAppState 800 600)))
  = viewState (initialAppState 800 600).
Proof.
  apply wheel_in_then_out_restores_view; unfold zoomFactor; simpl; lra.
Defined.

Lemma onMouseMove_panning x y st lastX lastY :
  isPanning st = true →
  onMouseMove x y (Interaction.mk st (lastX, lastY))
  = Interaction.mk
      (set_viewState (panBy (x - lastX) (y - lastY) (viewState st)) st) (x, y).
Proof. intros Hpan. unfold onMouseMove. simpl. by rewrite Hpan. Qed.

Lemma onMouseMove_fold moves st lastX lastY :
  isPanning st = true →
  let it := fold_left (λ it xy, onMouseMove (fst xy) (snd xy) it) moves
              (Interaction.mk st (lastX, lastY)) in
  let '(endX, endY) := default (lastX, lastY) (last moves) in
  Interaction.lastPanCanvasPosition it = (endX, endY)
  ∧ isPanning (Interaction.app it) = true
  ∧ viewState (Interaction.app it)
    = panBy (endX - lastX) (endY - lastY) (viewState st)
  ∧ initialViewState (Interaction.app it) = initialViewState st
  ∧ allTracksData (Interaction.app it) = allTracksData st
  ∧ webGLTrackBuffers (Interaction.app it) = webGLTrackBuffers st.
Proof.
  revert st lastX lastY.
  induction moves as [|[x y] moves IH]; intros st lastX lastY Hpan.
  - simpl. split_and!; try done.
    unfold panBy. destruct (viewState st). simpl. f_equal; lra.
  - cbn [fold_left fst snd]. rewrite onMouseMove_panning by done.
    specialize (IH (set_viewState (panBy (x - lastX) (y - lastY) (viewState st)) st)
                  x y Hpan).
    cbv zeta in IH |- *.
    replace (default (lastX, lastY) (last ((x, y) :: moves)))
      with (default (x, y) (last moves))
      by (rewrite last_cons; by destruct (last moves)).
    destruct (default (x, y) (last moves)) as [endX endY].
    destruct IH as (Hlast & Hp & Hv & Hi & Ht & Hb).
    split_and!; try done.
    rewrite Hv. unfold panBy. simpl. f_equal; lra.
Qed.

Lemma handleEvents_moves moves it :
  handleEvents (map (λ xy, MouseMove (fst xy) (snd xy)) moves) it
  = fold_left (λ it xy, onMouseMove (fst xy) (snd xy) it) moves it.
Proof.
  unfold handleEvents. revert it.
  induction moves as [|xy moves IH]; intros it; [done |]. simpl. apply IH.
Qed.

(** X3: a drag with the main button (mouse down, any number of moves,
    mouse up) adds to the pan the displacement of each move; in exact
    arithmetic these add up to the displacement of the cursor from where
    the button went down to the last move.  The scale, the tracks and the
    buffer are untouched and panning is over.  For the click handler's
    conversion a pixel shifted by that displacement converts to the same
    world point as before; the view matrix of the renderer moves the
    drawn picture by the displacement times the scale. *)
Theorem drag_shifts_pan_by_displacement st lastPan x0 y0 moves :
  let it := handleEvents
              (MouseDown 0 x0 y0
               :: map (λ xy, MouseMove (fst xy) (snd xy)) moves ++ [MouseUp])
              (Interaction.mk st lastPan) in
  let '(xn, yn) := default (x0, y0) (last moves) in
  viewState (Interaction.app it) = panBy (xn - x0) (yn - y0) (viewState st)
  ∧ isPanning (Interaction.app it) = false
  ∧ allTracksData (Interaction.app it) = allTracksData st
  ∧ webGLTrackBuffers (Interaction.app it) = webGLTrackBuffers st
  ∧ (∀ sx sy,
       screenToWorld (viewState (Interaction.app it))
         (sx + (xn - x0)) (sy + (yn - y0))
       = screenToWorld (viewState st) sx sy)
  ∧ ∀ width height p, width ≠ 0 → height ≠ 0 →
      worldToScreen width height (viewState (Interaction.app it)) p
      = (fst (worldToScreen width height (viewState st) p)
         + (xn - x0) * ViewState.scale (viewState st),
         snd (worldToScreen width height (viewState st) p)
         + (yn - y0) * ViewState.scale (viewState st)).
Proof.
  cbv zeta. unfold handleEvents. cbn [fold_left handleEvent].
  rewrite fold_left_app. cbn [fold_left handleEvent].
  fold (handleEvents (map (λ xy, MouseMove (fst xy) (snd xy)) moves)
          (onMouseDown 0 x0 y0 (Interaction.mk st lastPan))).
  rewrite handleEvents_moves. unfold onMouseDown. cbn [Z.eqb negb Interaction.app].
  pose proof (onMouseMove_fold moves (set_isPanning true st) x0 y0 eq_refl)
    as Hfold. cbv zeta in Hfold.
  destruct (default (x0, y0) (last moves)) as [xn yn].
  destruct Hfold as (_ & Hpan & Hv & _ & Ht & Hb).
  unfold onMouseUp. rewrite Hpan. cbn [Interaction.app].
  split_and!; try done.
  - intros sx sy. cbn [viewState set_isPanning]. rewrite Hv.
    unfold screenToWorld, panBy. simpl. unfold Rdiv. f_equal; ring.
  - intros width height p Hw Hh. cbn [viewState set_isPanning]. rewrite Hv.
    rewrite !worldToScreen_eq by done.
    unfold panBy. cbn [fst snd ViewState.panX ViewState.panY ViewState.scale
                       viewState set_isPanning].
    f_equal; ring.
Qed.

Lemma handleEvent_view_frame it e :
  isViewEvent e = true →
  initialViewState (Interaction.app (handleEvent it e))
  = initialViewState (Interaction.app it).
Proof.
  intros He. destruct it as [st lastPan].
  destruct e as [deltaY mouseX mouseY | button clientX clientY
                | clientX clientY | | | | type checked | activities];
    try done; simpl.
  - unfold onMouseDown. by destruct (negb (button =? 0)%Z).
  - unfold onMouseMove. simpl. by destruct (negb (isPanning st)).
  - unfold onMouseUp. simpl. by destruct (isPanning st).
  - unfold onMouseLeave, onMouseUp. simpl. by destruct (isPanning st).
  - unfold onResetView. simpl. by destruct (_ && _).
Qed.

Lemma handleEvents_view_frame events it :
  forallb isViewEvent events = true →
  initialViewState (Interaction.app (handleEvents events it))
  = initialViewState (Interaction.app it).
Proof.
  unfold handleEvents. revert it.
  induction events as [|e events IH]; intros it Hall; [done |].
  simpl in Hall. apply andb_true_iff in Hall as [He Hall].
  simpl. rewrite IH by done. by apply handleEvent_view_frame.
Qed.

Lemma onResetView_viewState st :
  viewState (onResetView st) = initialViewState st.
Proof. unfold onResetView. simpl. by destruct (_ && _). Qed.

(** X4: after a load of a non-empty activity list, whatever wheel steps,
    drags, filter changes and resets follow, a click on the reset button
    brings back exactly the view the load had fitted. *)
Theorem reset_restores_fitted_view request requests events it :
  forallb isViewEvent events = true →
  let loaded := handleEvent it (LoadClick (Some (request :: requests))) in
  viewState (Interaction.app
               (handleEvents (events ++ [ResetViewClick]) loaded))
  = viewState (Interaction.app loaded).
Proof.
  intros Hview loaded. unfold handleEvents. rewrite fold_left_app.
  cbn [fold_left handleEvent onApp Interaction.app].
  rewrite onResetView_viewState.
  fold (handleEvents events loaded). rewrite handleEvents_view_frame by done.
  subst loaded. cbn [handleEvent onApp Interaction.app].
  rewrite loadActivities_unfold. by rewrite resetViewAndFitTracks_views.
Qed.

Lemma reset_restores_fitted_view_witness :
  viewState
    (Interaction.app
       (handleEvents
          ([Wheel (-1) 10 20; MouseDown 0 5 5; MouseMove 40 60; MouseUp;
            FilterChange "run" false] ++ [ResetViewClick])
          (handleEvent (initialInteraction 800 600)
             (LoadClick sampleRunActivities))))
  = viewState
      (Interaction.app
         (handleEvent (initialInteraction 800 600)
            (LoadClick sampleRunActivities))).
Proof.
  apply (reset_restores_fitted_view
           (sampleActivity 101 "Run",
            ResponseJson (Some [(45, 7); (45.0001, 7.0002)]) None None) []).
  reflexivity.
Defined.

(** ** Fitting the view to the data *)

Lemma dataBounds_allPoints tracks acc :
  fold_left (λ acc track,
      fold_left extendBounds (Track.translatedPoints track) acc) tracks acc
  = fold_left extendBounds (allPoints tracks) acc.
Proof.
  revert acc. induction tracks as [|track tracks IH]; intros acc; [done |].
  unfold allPoints. cbn [flat_map fold_left].
  rewrite fold_left_app. apply IH.
Qed.

Lemma extendBounds_box pre p box :
  isBoundingBox pre box →
  ∃ box', extendBounds (Some box) p = Some box'
          ∧ isBoundingBox (pre ++ [p]) box'.
Proof.
  destruct box as [[[minX maxX] minY] maxY].
  intros (Hin & (qa & Hqa & Ha) & (qb & Hqb & Hb) & (qc & Hqc & Hc)
          & (qd & Hqd & Hd)).
  eexists. split; [reflexivity |]. unfold isBoundingBox.
  assert (p ∈ pre ++ [p]) as Hp
    by (apply elem_of_app; right; apply list_elem_of_here).
  assert (∀ q, q ∈ pre → q ∈ pre ++ [p]) as Hpre
    by (intros q Hq; apply elem_of_app; by left).
  split_and!.
  - intros q [Hq | ->%list_elem_of_singleton]%elem_of_app.
    + destruct (Hin q Hq). unfold Rmin, Rmax.
      repeat (destruct (Rle_dec _ _)); lra.
    + minmax_lra.
  - unfold Rmin. destruct (Rle_dec _ _); [exists qa | exists p]; auto.
  - unfold Rmax. destruct (Rle_dec _ _); [exists p | exists qb]; auto.
  - unfold Rmin. destruct (Rle_dec _ _); [exists qc | exists p]; auto.
  - unfold Rmax. destruct (Rle_dec _ _); [exists p | exists qd]; auto.
Qed.

Lemma fold_extendBounds_box points pre box :
  isBoundingBox pre box →
  ∃ box', fold_left extendBounds points (Some box) = Some box'
          ∧ isBoundingBox (pre ++ points) box'.
Proof.
  revert pre box. induction points as [|p points IH]; intros pre box Hbox.
  - exists box. by rewrite app_nil_r.
  - destruct (extendBounds_box pre p box Hbox) as (box1 & Hstep & Hbox1).
    cbn [fold_left]. rewrite Hstep.
    destruct (IH (pre ++ [p]) box1 Hbox1) as (box' & Hfold & Hbox').
    exists box'. split; [done |]. by rewrite <- app_assoc in Hbox'.
Qed.

Lemma fold_extendBounds_first p points :
  ∃ box, fold_left extendBounds (p :: points) None = Some box
         ∧ isBoundingBox (p :: points) box.
Proof.
  cbn [fold_left extendBounds].
  apply (fold_extendBounds_box points [p]).
  unfold isBoundingBox.
  split_and!; try (exists p; split; [apply list_elem_of_here | done]).
  intros q ->%list_elem_of_singleton. lra.
Qed.

Lemma dataBounds_spec tracks :
  match dataBounds tracks with
  | Some box => isBoundingBox (allPoints tracks) box
  | None => allPoints tracks = []
  end.
Proof.
  unfold dataBounds. rewrite dataBounds_allPoints.
  destruct (allPoints tracks) as [|p points]; [done |].
  by destruct (fold_extendBounds_first p points) as (box & -> & Hbox).
Qed.

(** X5: the box that [resetViewAndFitTracks] computes is the bounding box
    of all translated points of all tracks (it contains every point and
    each side is reached), and there is none exactly when no track has a
    point. *)
Theorem dataBounds_is_bounding_box tracks :
  match dataBounds tracks with
  | Some box => isBoundingBox (allPoints tracks) box
  | None => allPoints tracks = []
  end.
Proof. apply dataBounds_spec. Qed.









(** ** The style mapper, beyond monotonicity *)

Lemma thicknessRatioOf_range count : 0 <= thicknessRatioOf count <= 1.
Proof.
  unfold thicknessRatioOf. unfold_constants.
  destruct (Rlt_dec 2 5); [| lra]. minmax_lra.
Qed.

Lemma colorRatioOf_range count : 0 <= colorRatioOf count <= 1.
Proof.
  unfold colorRatioOf. unfold_constants.
  destruct (Rlt_dec 1 5); [| lra]. minmax_lra.
Qed.

(** X8: for every overlap count the thickness lies between the base
    thickness 2 and the maximum 20, the red channel lies in [0, 1], and the
    green and blue channels are 0. *)
Theorem style_values_in_range count :
  NON_OVERLAP_THICKNESS <= segmentThickness count <= MAX_OVERLAP_THICKNESS
  ∧ 0 <= redChannel (segmentColorRGB count) <= 1
  ∧ snd (fst (segmentColorRGB count)) = 0
  ∧ snd (segmentColorRGB count) = 0.
Proof.
  pose proof (thicknessRatioOf_range count) as Ht.
  pose proof (colorRatioOf_range count) as Hc.
  unfold segmentThickness, segmentColorRGB, redChannel, lerpChannel.
  destruct (count <=? 1)%nat; simpl; unfold_constants.
  - split_and!; lra.
  - split_and!; try lra; minmax_lra.
Qed.

(** X9: between the start of the effect and the full effect the two ramps
    are linear in the count: the thickness is 4 + 16 * (count - 2) / 3 and
    the colour is (count - 1) / 4 of the way from black to red. *)
Theorem style_ramps_are_linear (count : nat) :
  (2 <= count)%nat → (count <= 5)%nat →
  segmentThickness count = 4 + 16 * (INR count - 2) / 3
  ∧ segmentColorRGB count = ((INR count - 1) / 4, 0, 0).
Proof.
  intros Hlo Hhi.
  assert (2 <= INR count <= 5) as Hc
    by (apply le_INR in Hlo, Hhi; simpl in Hlo, Hhi; lra).
  unfold segmentThickness, segmentColorRGB, thicknessRatioOf, colorRatioOf,
    lerpChannel.
  destruct (Nat.leb_spec count 1); [lia |]. unfold_constants. simpl.
  destruct (Rlt_dec 2 5); [| lra]. destruct (Rlt_dec 1 5); [| lra].
  split.
  - unfold Rmin, Rmax. repeat (destruct (Rle_dec _ _)); lra.
  - f_equal; [f_equal |]; unfold Rmin, Rmax;
      repeat (destruct (Rle_dec _ _)); lra.
Qed.

Lemma style_ramps_are_linear_witness :
  segmentThickness 3 = 4 + 16 * (INR 3 - 2) / 3
  ∧ segmentColorRGB 3 = ((INR 3 - 1) / 4, 0, 0).
Proof. apply style_ramps_are_linear; lia. Defined.

(** X10: from the full-effect count on the style no longer changes: the
    thickness is the maximum 20 and the colour is the full red. *)
Theorem style_saturates_at_full_effect (count : nat) :
  (5 <= count)%nat →
  segmentThickness count = MAX_OVERLAP_THICKNESS
  ∧ segmentColorRGB count = MAX_OVERLAP_TRACK_COLOR_RGB.
Proof.
  intros Hlo.
  assert (5 <= INR count) as Hc by (apply le_INR in Hlo; simpl in Hlo; lra).
  unfold segmentThickness, segmentColorRGB, thicknessRatioOf, colorRatioOf,
    lerpChannel.
  destruct (Nat.leb_spec count 1); [lia |]. unfold_constants. simpl.
  destruct (Rlt_dec 2 5); [| lra]. destruct (Rlt_dec 1 5); [| lra].
  split.
  - unfold Rmin, Rmax. repeat (destruct (Rle_dec _ _)); lra.
  - unfold MAX_OVERLAP_TRACK_COLOR_RGB.
    f_equal; [f_equal |]; unfold Rmin, Rmax;
      repeat (destruct (Rle_dec _ _)); lra.
Qed.

Lemma style_saturates_at_full_effect_witness :
  segmentThickness 12 = MAX_OVERLAP_THICKNESS
  ∧ segmentColorRGB 12 = MAX_OVERLAP_TRACK_COLOR_RGB.
Proof. apply style_saturates_at_full_effect; lia. Defined.

(** ** The render buffer, beyond filter changes *)

Lemma length_flat_map_chunk {A B : Type} (f : A → list B) (c : nat)
    (l : list A) :
  (∀ a, length (f a) = c) → length (flat_map f l) = (length l * c)%nat.
Proof.
  intros Hlen. induction l as [|a l IH]; [done |].
  cbn [flat_map length]. rewrite length_app, Hlen, IH. lia.
Qed.

Lemma colorsOf_length ts : length (colorsOf ts) = 6%nat.
Proof.
  unfold colorsOf.
  by destruct (segmentColorRGB (Segment.overlapCount (snd ts))) as [[r g] b].
Qed.

(** X11: the buffer that [prepareDataForWebGL] builds for n visible
    segments has 2n vertices: 4n position numbers, 6n colour numbers, 2n
    thicknesses, 2n track ids, and the indices 0, 1, ..., 2n - 1 in order,
    so every index names a vertex of the buffer. *)
Theorem prepared_buffer_layout st :
  let buf := webGLTrackBuffers (prepareDataForWebGL st) in
  let n := length (visibleSegments (activeActivityFilters st)
                     (allTracksData st)) in
  length (Buffers.positions buf) = (4 * n)%nat
  ∧ length (Buffers.colors buf) = (6 * n)%nat
  ∧ length (Buffers.thicknesses buf) = (2 * n)%nat
  ∧ length (Buffers.segmentTrackIds buf) = (2 * n)%nat
  ∧ Buffers.indices buf = seq 0 (2 * n)
  ∧ ∀ i idx, Buffers.indices buf !! i = Some idx →
      idx = i ∧ (2 * idx + 1 < length (Buffers.positions buf))%nat.
Proof.
  intros buf n. subst buf n. unfold prepareDataForWebGL. simpl.
  rewrite buildBuffers_visibleSegments.
  set (visible := visibleSegments _ _). unfold buffersOfSegments. simpl.
  rewrite (length_flat_map_chunk positionsOf 4) by done.
  rewrite (length_flat_map_chunk colorsOf 6) by apply colorsOf_length.
  rewrite (length_flat_map_chunk thicknessesOf 2) by done.
  rewrite (length_flat_map_chunk trackIdsOf 2) by done.
  split_and!; try lia; [done |].
  intros i idx Hi. apply lookup_seq in Hi as [-> Hlt]. simpl. lia.
Qed.

Lemma prepareDataForWebGL_buffers st :
  webGLTrackBuffers (prepareDataForWebGL st)
  = buffersOfSegments
      (visibleSegments (activeActivityFilters st) (allTracksData st)).
Proof. unfold prepareDataForWebGL. simpl. apply buildBuffers_visibleSegments. Qed.

(** X12: what [prepareDataForWebGL] writes the picker reads back: for the
    k-th visible segment, the loop iteration at index 2k of
    [handleCanvasClickForPopup] reads exactly that segment's two end points
    and the id of its track. *)
Theorem picker_reads_back_prepared_segments st k track segment :
  visibleSegments (activeActivityFilters st) (allTracksData st) !! k
  = Some (track, segment) →
  readSegment (webGLTrackBuffers (prepareDataForWebGL st)) (2 * k)
  = (Some (Segment.p1 segment, Segment.p2 segment), Some (Track.id track))
  ∧ (2 * k)%nat
    ∈ loopIndices
        (length (Buffers.indices
                   (webGLTrackBuffers (prepareDataForWebGL st)))).
Proof.
  intros Hk. rewrite prepareDataForWebGL_buffers. split.
  - by apply readSegment_buffersOfSegments.
  - apply elem_of_loopIndices. split; [by exists k |].
    unfold buffersOfSegments. simpl. rewrite length_seq.
    apply lookup_lt_Some in Hk. lia.
Qed.

Lemma pickSampleState_visible :
  visibleSegments (activeActivityFilters pickSampleState)
    (allTracksData pickSampleState)
  = [(pickSampleTrack, Segment.mk (Point.mk 0 0) (Point.mk 10 (-5)) 1)].
Proof.
  unfold visibleSegments, filterActive. simpl.
  by rewrite lookup_singleton_eq.
Qed.

Lemma picker_reads_back_prepared_segments_witness :
  readSegment (webGLTrackBuffers (prepareDataForWebGL pickSampleState)) (2 * 0)
  = (Some (Point.mk 0 0, Point.mk 10 (-5)), Some 101%Z)
  ∧ (2 * 0)%nat
    ∈ loopIndices
        (length (Buffers.indices
                   (webGLTrackBuffers (prepareDataForWebGL pickSampleState)))).
Proof.
  apply (picker_reads_back_prepared_segments pickSampleState 0 pickSampleTrack
           (Segment.mk (Point.mk 0 0) (Point.mk 10 (-5)) 1)).
  by rewrite pickSampleState_visible.
Defined.

(** X13: in the prepared buffer both vertices of the k-th visible segment
    carry the same attributes: the thickness and the colour that the
    style mapper gives the segment's overlap count, and the id of its
    track. *)
Theorem prepared_vertices_share_attributes st k track segment :
  visibleSegments (activeActivityFilters st) (allTracksData st) !! k
  = Some (track, segment) →
  let buf := webGLTrackBuffers (prepareDataForWebGL st) in
  let thickness := segmentThickness (Segment.overlapCount segment) in
  let '(r, g, b) := segmentColorRGB (Segment.overlapCount segment) in
  (∀ vertex, (vertex < 2)%nat →
     Buffers.thicknesses buf !! (2 * k + vertex)%nat = Some thickness
     ∧ Buffers.segmentTrackIds buf !! (2 * k + vertex)%nat
       = Some (Track.id track)
     ∧ Buffers.colors buf !! (3 * (2 * k + vertex))%nat = Some r
     ∧ Buffers.colors buf !! (3 * (2 * k + vertex) + 1)%nat = Some g
     ∧ Buffers.colors buf !! (3 * (2 * k + vertex) + 2)%nat = Some b).
Proof.
  intros Hk. cbv zeta. rewrite prepareDataForWebGL_buffers.
  destruct (segmentColorRGB (Segment.overlapCount segment)) as [[r g] b] eqn:Hc.
  intros vertex Hv. unfold buffersOfSegments.
  cbn [Buffers.thicknesses Buffers.colors Buffers.segmentTrackIds].
  assert (colorsOf (track, segment) = [r; g; b; r; g; b]) as Hcolors
    by (unfold colorsOf; simpl; by rewrite Hc).
  replace (2 * k + vertex)%nat with (k * 2 + vertex)%nat by lia.
  rewrite (lookup_flat_map_chunk thicknessesOf 2 _ k vertex (track, segment))
    by done.
  rewrite (lookup_flat_map_chunk trackIdsOf 2 _ k vertex (track, segment))
    by done.
  replace (3 * (k * 2 + vertex))%nat with (k * 6 + 3 * vertex)%nat by lia.
  replace (k * 6 + 3 * vertex + 1)%nat with (k * 6 + (3 * vertex + 1))%nat
    by lia.
  replace (k * 6 + 3 * vertex + 2)%nat with (k * 6 + (3 * vertex + 2))%nat
    by lia.
  rewrite !(lookup_flat_map_chunk colorsOf 6 _ k _ (track, segment))
    by (apply colorsOf_length || done || lia).
  rewrite Hcolors.
  by destruct vertex as [|[|vertex]]; [| | lia].
Qed.

Lemma prepared_vertices_share_attributes_witness :
  Buffers.thicknesses (webGLTrackBuffers (prepareDataForWebGL pickSampleState))
    !! (2 * 0 + 1)%nat = Some (segmentThickness 1)
  ∧ Buffers.segmentTrackIds
      (webGLTrackBuffers (prepareDataForWebGL pickSampleState))
      !! (2 * 0 + 1)%nat = Some 101%Z
  ∧ Buffers.colors (webGLTrackBuffers (prepareDataForWebGL pickSampleState))
      !! (3 * (2 * 0 + 1))%nat = Some 0
  ∧ Buffers.colors (webGLTrackBuffers (prepareDataForWebGL pickSampleState))
      !! (3 * (2 * 0 + 1) + 1)%nat = Some 0
  ∧ Buffers.colors (webGLTrackBuffers (prepareDataForWebGL pickSampleState))
      !! (3 * (2 * 0 + 1) + 2)%nat = Some 0.
Proof.
  refine (prepared_vertices_share_attributes pickSampleState 0 pickSampleTrack
            (Segment.mk (Point.mk 0 0) (Point.mk 10 (-5)) 1) _ 1%nat _).
  - by rewrite pickSampleState_visible.
  - lia.
Defined.

(** X14: unticking the checkbox of a visible type and ticking it again
    gives back the state that [prepareDataForWebGL] leaves: the same
    filters and the same buffer. *)
Theorem filter_off_then_on_restores type st :
  activeActivityFilters st !! type = Some true →
  onFilterChange type true (onFilterChange type false st)
  = prepareDataForWebGL st.
Proof.
  intros Hon. unfold onFilterChange, prepareDataForWebGL. simpl.
  rewrite insert_insert_eq, (insert_id _ _ _ Hon).
  by destruct st.
Qed.

Lemma filter_off_then_on_restores_witness :
  onFilterChange "run" true (onFilterChange "run" false pickSampleState)
  = prepareDataForWebGL pickSampleState.
Proof.
  apply filter_off_then_on_restores. simpl. apply lookup_singleton_eq.
Defined.

Lemma visibleSegments_none filters tracks :
  (∀ track, track ∈ tracks → filterActive filters (Track.type track) = false) →
  visibleSegments filters tracks = [].
Proof.
  intros Hoff. unfold visibleSegments.
  induction tracks as [|track tracks IH]; [done |].
  cbn [flat_map]. rewrite Hoff by apply list_elem_of_here.
  apply IH. intros t Ht. apply Hoff. by apply list_elem_of_further.
Qed.

(** X15: when no track's type is active in the filter (unticked, or never
    given an entry), the prepared buffer is empty, and a click on the
    canvas then changes nothing: it neither shows nor hides the popup. *)
Theorem nothing_visible_nothing_picked st clickX_screen clickY_screen :
  (∀ track, track ∈ allTracksData st →
     filterActive (activeActivityFilters st) (Track.type track) = false) →
  webGLTrackBuffers (prepareDataForWebGL st) = Buffers.empty
  ∧ handleCanvasClickForPopup clickX_screen clickY_screen
      (prepareDataForWebGL st) = NoPopupChange.
Proof.
  intros Hoff.
  assert (webGLTrackBuffers (prepareDataForWebGL st) = Buffers.empty) as Hbuf
    by (rewrite prepareDataForWebGL_buffers, visibleSegments_none; done).
  split; [done |]. unfold handleCanvasClickForPopup. rewrite Hbuf. simpl.
  by destruct (isPanning st).
Qed.

Lemma nothing_visible_nothing_picked_witness :
  webGLTrackBuffers
    (prepareDataForWebGL (onFilterChange "run" false pickSampleState))
  = Buffers.empty
  ∧ handleCanvasClickForPopup 405 297.5
      (prepareDataForWebGL (onFilterChange "run" false pickSampleState))
    = NoPopupChange.
Proof.
  apply nothing_visible_nothing_picked.
  intros track ->%list_elem_of_singleton.
  unfold filterActive. simpl. by rewrite lookup_insert_eq.
Defined.

(** ** The classifier and the grid, beyond the overlap bound *)

Lemma tracksFrom_internalIds k l :
  StronglySorted lt (map Track.internalId (tracksFrom k l))
  ∧ ∀ i, i ∈ map Track.internalId (tracksFrom k l) →
      (k <= i < k + length l)%nat.
Proof.
  revert k. induction l as [|entry l IH]; intros k; simpl.
  - split; [constructor | by intros i ?%elem_of_nil].
  - destruct (IH (S k)) as [Hsorted Hrange].
    destruct (length (StreamData.latlngStream entry) <? 2)%nat; simpl.
    + split; [done |]. intros i Hi. specialize (Hrange i Hi). lia.
    + split.
      * constructor; [done |]. apply Forall_forall.
        intros i Hi. specialize (Hrange i Hi). lia.
      * intros i [-> | Hi]%elem_of_cons; [lia |].
        specialize (Hrange i Hi). lia.
Qed.

Lemma StronglySorted_lt_NoDup (l : list nat) : StronglySorted lt l → NoDup l.
Proof.
  induction 1 as [|a l Hsorted IH Hall]; constructor; [| done].
  intros Hin. rewrite Forall_forall in Hall.
  apply Hall in Hin. lia.
Qed.

Lemma loaded_internalIds activities st :
  map Track.internalId (allTracksData (loadActivities activities st))
  = map Track.internalId (loadedTracks activities).
Proof.
  rewrite loadActivities_tracks, map_map. apply map_ext.
  intros track. apply calculateTrackOverlaps_internalId.
Qed.

(** X16: after a load the internal ids of the tracks are strictly
    increasing along [allTracksData], hence pairwise different, and each
    is the position of the track's stream among the resolved streams. *)
Theorem internal_ids_increasing activities st :
  let ids := map Track.internalId
               (allTracksData (loadActivities activities st)) in
  StronglySorted lt ids
  ∧ NoDup ids
  ∧ ∀ track, track ∈ allTracksData (loadActivities activities st) →
      ∃ entry, loadedStreams activities !! Track.internalId track = Some entry
               ∧ Track.id track = ActivityInfo.id (StreamData.activityInfo entry).
Proof.
  intros ids. subst ids. rewrite loaded_internalIds.
  destruct (tracksFrom_internalIds 0 (loadedStreams activities))
    as [Hsorted _].
  split_and!; [done | by apply StronglySorted_lt_NoDup |].
  intros track'. rewrite loadActivities_tracks.
  intros (track & -> & Hin)%list_elem_of_fmap.
  rewrite calculateTrackOverlaps_internalId, calculateTrackOverlaps_id.
  apply elem_of_tracksFrom in Hin as (i & entry & Hi & _ & ->).
  by exists entry.
Qed.

Lemma vicinity_subset tracks gx gy :
  uniqueTrackInternalIdsInVicinity (gridOfTracks tracks ∅) gx gy
  ⊆ list_to_set (map Track.internalId tracks).
Proof.
  intros i (track & Hin & <- & _)%elem_of_vicinity.
  apply elem_of_list_to_set, list_elem_of_fmap. by exists track.
Qed.

(** X17: after a load no segment's [overlapCount] exceeds the number of
    tracks. *)
Theorem overlap_count_at_most_track_count activities st track segment :
  let st' := loadActivities activities st in
  track ∈ allTracksData st' →
  segment ∈ Track.segmentsWithOverlap track →
  (Segment.overlapCount segment <= length (allTracksData st'))%nat.
Proof.
  intros st'. subst st'. rewrite loadActivities_tracks.
  intros (track0 & -> & Hin)%list_elem_of_fmap.
  rewrite calculateTrackOverlaps_segments, length_map.
  generalize (Track.internalId track0) as iid.
  induction (Track.translatedPoints track0) as [|p1 points IH]; intros iid;
    [by intros ?%elem_of_nil |].
  destruct points as [|p2 points]; [by intros ?%elem_of_nil |].
  cbn [segmentsOf]. intros [-> | Hseg]%elem_of_cons; [| by apply (IH iid)].
  cbn [Segment.overlapCount]. unfold getOverlapCountForPoint.
  etrans; [apply subseteq_size, vicinity_subset |].
  destruct (tracksFrom_internalIds 0 (loadedStreams activities))
    as [Hsorted _].
  rewrite size_list_to_set by (by apply StronglySorted_lt_NoDup).
  by rewrite length_map.
Qed.

Lemma overlap_count_at_most_track_count_witness :
  (Segment.overlapCount
     (Segment.mk (translateScale (LatLon.mk 45 7) (LatLon.mk 45 7))
        (translateScale (LatLon.mk 45 7) (LatLon.mk 45.0001 7.0002))
        (getOverlapCountForPoint
           (gridOfTracks (loadedTracks sampleRunActivities) ∅)
           (midpointOf
              (translateScale (LatLon.mk 45 7) (LatLon.mk 45 7))
              (translateScale (LatLon.mk 45 7) (LatLon.mk 45.0001 7.0002)))
           0))
   <= length (allTracksData
                (loadActivities sampleRunActivities (initialAppState 800 600))))%nat.
Proof.
  apply (overlap_count_at_most_track_count sampleRunActivities
           (initialAppState 800 600)
           (calculateTrackOverlaps
              (gridOfTracks (loadedTracks sampleRunActivities) ∅)
              (trackForOverlap sampleRunStream 0))).
  - rewrite loadActivities_tracks. apply list_elem_of_here.
  - rewrite calculateTrackOverlaps_segments. apply list_elem_of_here.
Defined.

Lemma segmentsOf_length grid iid points :
  length (segmentsOf grid iid points) = (length points - 1)%nat.
Proof.
  induction points as [|p1 [|p2 points] IH]; [done | done |].
  cbn [segmentsOf length] in *. rewrite IH. lia.
Qed.

Lemma segmentsOf_lookup_inv grid iid points j segment :
  segmentsOf grid iid points !! j = Some segment →
  points !! j = Some (Segment.p1 segment)
  ∧ points !! S j = Some (Segment.p2 segment).
Proof.
  revert j. induction points as [|p1 [|p2 points] IH]; intros j; [done.. |].
  destruct j as [|j].
  - by intros [= <-].
  - intros Hj. by apply (IH j).
Qed.

(** X18: after a load every track has one segment less than it has points
    (so at least one), the j-th segment joins the j-th and the next point,
    and consecutive segments share an end point. *)
Theorem segments_follow_the_points activities st track :
  track ∈ allTracksData (loadActivities activities st) →
  (2 <= length (Track.translatedPoints track))%nat
  ∧ length (Track.segmentsWithOverlap track)
    = (length (Track.translatedPoints track) - 1)%nat
  ∧ (∀ j segment, Track.segmentsWithOverlap track !! j = Some segment →
       Track.translatedPoints track !! j = Some (Segment.p1 segment)
       ∧ Track.translatedPoints track !! S j = Some (Segment.p2 segment))
  ∧ (∀ j segment segment',
       Track.segmentsWithOverlap track !! j = Some segment →
       Track.segmentsWithOverlap track !! S j = Some segment' →
       Segment.p2 segment = Segment.p1 segment').
Proof.
  rewrite loadActivities_tracks.
  intros (track0 & -> & Hin)%list_elem_of_fmap.
  rewrite calculateTrackOverlaps_segments, calculateTrackOverlaps_points.
  split_and!.
  - apply elem_of_tracksFrom in Hin as (i & entry & _ & Hlen & ->).
    simpl. destruct (StreamData.latlngStream entry) as [|[lat0 lon0] rest];
      [simpl in Hlen; lia |].
    rewrite translatedScaledPointsOf_cons, length_map. done.
  - apply segmentsOf_length.
  - intros j segment. apply segmentsOf_lookup_inv.
  - intros j segment segment' Hj Hj'.
    apply segmentsOf_lookup_inv in Hj as [_ Hp2], Hj' as [Hp1 _]. congruence.
Qed.

Lemma segments_follow_the_points_witness :
  (2 <= length (Track.translatedPoints
                  (calculateTrackOverlaps
                     (gridOfTracks (loadedTracks sampleRunActivities) ∅)
                     (trackForOverlap sampleRunStream 0))))%nat.
Proof.
  apply (segments_follow_the_points sampleRunActivities
           (initialAppState 800 600)).
  rewrite loadActivities_tracks. apply list_elem_of_here.
Defined.

Lemma gridOfTracks_nonempty tracks grid :
  (∀ key s, grid !! key = Some s → ∃ i, i ∈ s) →
  ∀ key s, gridOfTracks tracks grid !! key = Some s → ∃ i, i ∈ s.
Proof.
  assert (∀ iid points (g : gmap string (gset nat)),
            (∀ key s, g !! key = Some s → ∃ i, i ∈ s) →
            ∀ key s, fold_left (gridAddPoint iid) points g !! key = Some s →
                     ∃ i, i ∈ s) as Hpoints.
  { intros iid points. induction points as [|p points IH]; intros g Hg; [done |].
    cbn [fold_left]. apply IH. intros key s.
    unfold gridAddPoint. rewrite gridAdd_insert.
    destruct (decide (cellKey (gridCoord (Point.x p)) (gridCoord (Point.y p))
                      = key)) as [<- | Hne].
    - rewrite lookup_insert_eq. intros [= <-]. exists iid. set_solver.
    - rewrite lookup_insert_ne by done. apply Hg. }
  revert grid. induction tracks as [|track tracks IH]; intros grid Hg; [done |].
  change (gridOfTracks (track :: tracks) grid)
    with (gridOfTracks tracks
            (fold_left (gridAddPoint (Track.internalId track))
               (Track.translatedPoints track) grid)).
  apply IH. by apply Hpoints.
Qed.

(** X19: after a load every entry of the grid is a non-empty set stored
    under the key of a cell that holds a point of a loaded track. *)
Theorem grid_entries_are_occupied_cells activities st key s :
  pointPresenceGrid (loadActivities activities st) !! key = Some s →
  s ≠ ∅
  ∧ ∃ track p,
      track ∈ allTracksData (loadActivities activities st)
      ∧ p ∈ Track.translatedPoints track
      ∧ Track.internalId track ∈ s
      ∧ key = cellKey (Zfloor (Point.x p / GRID_CELL_SIZE))
                      (Zfloor (Point.y p / GRID_CELL_SIZE)).
Proof.
  rewrite loadActivities_grid, loadActivities_tracks. intros Hkey.
  destruct (gridOfTracks_nonempty (loadedTracks activities) ∅) with key s
    as [i Hi]; [intros k s'; by rewrite lookup_empty | done |].
  split; [set_solver |].
  assert (inCell (gridOfTracks (loadedTracks activities) ∅) key i) as Hcell
    by (by exists s).
  apply inCell_gridOfTracks in Hcell
    as [[]%inCell_empty | (track & Hin & <- & p & Hp & <-)].
  eexists (calculateTrackOverlaps _ track), p.
  rewrite calculateTrackOverlaps_points, calculateTrackOverlaps_internalId.
  split_and!; try done. apply list_elem_of_fmap. by exists track.
Qed.

Lemma sampleRun_grid_origin :
  ∃ s, pointPresenceGrid
         (loadActivities sampleRunActivities (initialAppState 800 600))
       !! cellKey 0 0 = Some s.
Proof.
  rewrite loadActivities_grid.
  assert (inCell (gridOfTracks (loadedTracks sampleRunActivities) ∅)
            (cellKey 0 0) 0) as (s & Hs & _).
  { apply inCell_gridOfTracks. right.
    exists (trackForOverlap sampleRunStream 0).
    split; [apply list_elem_of_here |]. split; [done |].
    exists (translateScale (LatLon.mk 45 7) (LatLon.mk 45 7)).
    split; [apply list_elem_of_here |].
    by rewrite !(gridCoord_eq 0) by (simpl; unfold_constants; lra). }
  by exists s.
Qed.

Lemma grid_entries_are_occupied_cells_witness :
  ∃ s, s ≠ (∅ : gset nat)
       ∧ pointPresenceGrid
           (loadActivities sampleRunActivities (initialAppState 800 600))
         !! cellKey 0 0 = Some s.
Proof.
  destruct sampleRun_grid_origin as [s Hs]. exists s. split; [| done].
  by destruct (grid_entries_are_occupied_cells sampleRunActivities
                 (initialAppState 800 600) (cellKey 0 0) s Hs).
Defined.

Lemma size_two_of_elems (X : gset nat) i j :
  i ≠ j → i ∈ X → j ∈ X → (2 <= size X)%nat.
Proof.
  intros Hne Hi Hj.
  assert (size ({[i; j]} : gset nat) = 2%nat) as <-
    by (rewrite size_union by set_solver; by rewrite !size_singleton).
  apply subseteq_size. set_solver.
Qed.

(** X20: after a load, a segment whose midpoint has points of two
    different tracks within the 3x3 block of cells around it is classified
    with an [overlapCount] of at least 2. *)
Theorem two_tracks_nearby_count_two activities st track j segment
    trackA trackB pA pB :
  let st' := loadActivities activities st in
  let mid := midpointOf (Segment.p1 segment) (Segment.p2 segment) in
  track ∈ allTracksData st' →
  Track.segmentsWithOverlap track !! j = Some segment →
  trackA ∈ allTracksData st' → trackB ∈ allTracksData st' →
  Track.internalId trackA ≠ Track.internalId trackB →
  pA ∈ Track.translatedPoints trackA → pB ∈ Track.translatedPoints trackB →
  (-1 <= gridCoord (Point.x pA) - gridCoord (Point.x mid) <= 1)%Z →
  (-1 <= gridCoord (Point.y pA) - gridCoord (Point.y mid) <= 1)%Z →
  (-1 <= gridCoord (Point.x pB) - gridCoord (Point.x mid) <= 1)%Z →
  (-1 <= gridCoord (Point.y pB) - gridCoord (Point.y mid) <= 1)%Z →
  (2 <= Segment.overlapCount segment)%nat.
Proof.
  intros st' mid. subst st' mid. rewrite loadActivities_tracks.
  intros (track0 & -> & Hin)%list_elem_of_fmap.
  rewrite calculateTrackOverlaps_segments. intros Hseg.
  intros (tA & -> & HA)%list_elem_of_fmap (tB & -> & HB)%list_elem_of_fmap.
  rewrite !calculateTrackOverlaps_internalId, !calculateTrackOverlaps_points.
  intros Hne HpA HpB HAx HAy HBx HBy.
  pose proof (segmentsOf_lookup_inv _ _ _ _ _ Hseg) as [H1 H2].
  rewrite (segmentsOf_lookup _ _ _ _ _ _ H1 H2) in Hseg.
  injection Hseg as <-. cbn [Segment.overlapCount Segment.p1 Segment.p2] in *.
  unfold getOverlapCountForPoint.
  apply (size_two_of_elems _ _ _ Hne); apply elem_of_vicinity.
  - exists tA. split_and!; try done. by exists pA.
  - exists tB. split_and!; try done. by exists pB.
Qed.

Lemma two_tracks_nearby_count_two_witness :
  (2 <= Segment.overlapCount
          (Segment.mk twinPoint1 twinPoint2
             (getOverlapCountForPoint (gridOfTracks [twinRun; twinRide] ∅)
                (midpointOf twinPoint1 twinPoint2) 0)))%nat.
Proof.
  assert (∀ p, gridCoord (Point.x p) = 0%Z → gridCoord (Point.y p) = 0%Z →
            (-1 <= gridCoord (Point.x twinPoint1) - gridCoord (Point.x p) <= 1)%Z
            ∧ (-1 <= gridCoord (Point.y twinPoint1) - gridCoord (Point.y p) <= 1)%Z)
    as Hnear.
  { intros p -> ->.
    rewrite !(gridCoord_eq 0) by (simpl; unfold_constants; lra). lia. }
  destruct (Hnear (midpointOf twinPoint1 twinPoint2)) as [Hx Hy];
    [apply gridCoord_eq; simpl; unfold_constants; lra.. |].
  apply (two_tracks_nearby_count_two twinActivities (initialAppState 800 600)
           (calculateTrackOverlaps (gridOfTracks [twinRun; twinRide] ∅) twinRun)
           0%nat _
           (calculateTrackOverlaps (gridOfTracks [twinRun; twinRide] ∅) twinRun)
           (calculateTrackOverlaps (gridOfTracks [twinRun; twinRide] ∅) twinRide)
           twinPoint1 twinPoint1).
  - rewrite twinActivities_tracks. apply list_elem_of_here.
  - by rewrite calculateTrackOverlaps_segments.
  - rewrite twinActivities_tracks. apply list_elem_of_here.
  - rewrite twinActivities_tracks.
    apply list_elem_of_further, list_elem_of_here.
  - rewrite !calculateTrackOverlaps_internalId. done.
  - rewrite calculateTrackOverlaps_points. apply list_elem_of_here.
  - rewrite calculateTrackOverlaps_points. apply list_elem_of_here.
  - done.
  - done.
  - done.
  - done.
Defined.

(** ** Loading, beyond the isolation of failures *)

Lemma forEachFrom_processStream_metadata l k st :
  activityMetadata (forEachFrom processStream k l st)
  = metadataOfStreams l (activityMetadata st).
Proof.
  revert k st. induction l as [|entry l IH]; intros k st; simpl; [done |].
  rewrite IH. unfold processStream.
  by destruct (length (StreamData.latlngStream entry) <? 2)%nat.
Qed.

Lemma resetViewAndFitTracks_types st :
  activityTypes (resetViewAndFitTracks st) = activityTypes st.
Proof.
  unfold resetViewAndFitTracks.
  destruct (allTracksData st); [done |].
  destruct (dataBounds _) as [[[[minX maxX] minY] maxY]|]; [| done].
  by destruct (bool_decide _ && bool_decide _).
Qed.

Lemma loadActivities_frame request requests st :
  let st' := loadActivities (Some (request :: requests)) st in
  let streams := resolvedStreamsOf (request :: requests) in
  activityMetadata st' = metadataOfStreams streams ∅
  ∧ activityTypes st' = list_to_set (map Track.type (tracksFrom 0 streams))
  ∧ activeActivityFilters st'
    = fold_left defaultToVisible (elements (activityTypes st')) ∅
  ∧ webGLTrackBuffers st'
    = buildBuffers (activeActivityFilters st') (allTracksData st').
Proof.
  intros st' streams. subst st'. rewrite loadActivities_unfold.
  fold streams.
  set (st1 := processStravaData streams (clearDataset st)).
  assert (activityMetadata st1 = metadataOfStreams streams ∅) as Hmeta
    by (unfold st1, processStravaData, forEach;
        by rewrite forEachFrom_processStream_metadata).
  assert (activityTypes st1
          = list_to_set (map Track.type (tracksFrom 0 streams))) as Htypes
    by (unfold st1, processStravaData, forEach;
        rewrite forEachFrom_processStream_types; simpl; set_solver).
  assert (activeActivityFilters st1 = ∅) as Hfilters
    by (unfold st1, processStravaData, forEach;
        by rewrite forEachFrom_processStream_filters).
  destruct (resetViewAndFitTracks_frame
              (prepareDataForWebGL (calculateAllSegmentOverlaps
                 (updateActivityToggles st1))))
    as (-> & _ & -> & -> & ->).
  rewrite resetViewAndFitTracks_types.
  simpl. by rewrite Hmeta, Htypes, Hfilters.
Qed.

(** X21: a load with a non-empty activity list replaces the dataset
    wholesale: the tracks, metadata, activity types, filters, grid and
    render buffer it leaves are the same whatever the state before. *)
Theorem load_replaces_dataset request requests st1 st2 :
  let loaded1 := loadActivities (Some (request :: requests)) st1 in
  let loaded2 := loadActivities (Some (request :: requests)) st2 in
  allTracksData loaded1 = allTracksData loaded2
  ∧ activityMetadata loaded1 = activityMetadata loaded2
  ∧ activityTypes loaded1 = activityTypes loaded2
  ∧ activeActivityFilters loaded1 = activeActivityFilters loaded2
  ∧ pointPresenceGrid loaded1 = pointPresenceGrid loaded2
  ∧ webGLTrackBuffers loaded1 = webGLTrackBuffers loaded2.
Proof.
  intros loaded1 loaded2. subst loaded1 loaded2.
  destruct (loadActivities_frame request requests st1) as (Hm1 & Ht1 & Hf1 & Hb1).
  destruct (loadActivities_frame request requests st2) as (Hm2 & Ht2 & Hf2 & Hb2).
  assert (allTracksData (loadActivities (Some (request :: requests)) st1)
          = allTracksData (loadActivities (Some (request :: requests)) st2))
    as Htracks by (by rewrite !loadActivities_tracks).
  assert (activityTypes (loadActivities (Some (request :: requests)) st1)
          = activityTypes (loadActivities (Some (request :: requests)) st2))
    as Htypes by congruence.
  assert (activeActivityFilters (loadActivities (Some (request :: requests)) st1)
          = activeActivityFilters (loadActivities (Some (request :: requests)) st2))
    as Hfilters by (rewrite Hf1, Hf2; by rewrite Htypes).
  split_and!; try done.
  - congruence.
  - by rewrite !loadActivities_grid.
  - rewrite Hb1, Hb2. by rewrite Htracks, Hfilters.
Qed.

Lemma metadataOfStreams_other l metadata tid :
  tid ∉ map (λ entry, ActivityInfo.id (StreamData.activityInfo entry)) l →
  metadataOfStreams l metadata !! tid = metadata !! tid.
Proof.
  revert metadata. induction l as [|entry l IH]; intros metadata Hnot; [done |].
  cbn [map] in Hnot. apply not_elem_of_cons in Hnot as [Hne Hnot].
  cbn [metadataOfStreams]. rewrite IH by done.
  destruct (length (StreamData.latlngStream entry) <? 2)%nat; [done |].
  by rewrite lookup_insert_ne.
Qed.

Lemma metadataOfStreams_lookup l metadata i entry :
  NoDup (map (λ entry, ActivityInfo.id (StreamData.activityInfo entry)) l) →
  l !! i = Some entry →
  (2 <= length (StreamData.latlngStream entry))%nat →
  metadataOfStreams l metadata
    !! ActivityInfo.id (StreamData.activityInfo entry)
  = Some (metadataOf (StreamData.activityInfo entry)).
Proof.
  revert metadata i. induction l as [|e l IH]; intros metadata i Hnd Hi Hlen;
    [done |].
  cbn [map] in Hnd. apply NoDup_cons in Hnd as [Hnot Hnd].
  destruct i as [|i].
  - injection Hi as ->. cbn [metadataOfStreams].
    rewrite metadataOfStreams_other by done.
    destruct (Nat.ltb_spec (length (StreamData.latlngStream entry)) 2); [lia |].
    apply lookup_insert_eq.
  - cbn [metadataOfStreams]. by apply (IH _ i).
Qed.

(** X22: when the resolved streams of a load come from activities with
    pairwise different ids, every track it builds has its metadata stored
    under its own id, with the same id and the same activity type as the
    track; so the picker's filter test on a segment's metadata agrees with
    the filter that built the buffer. *)
Theorem loaded_tracks_have_their_metadata request requests st track :
  let st' := loadActivities (Some (request :: requests)) st in
  NoDup (map (λ entry, ActivityInfo.id (StreamData.activityInfo entry))
           (resolvedStreamsOf (request :: requests))) →
  track ∈ allTracksData st' →
  ∃ trackMeta,
    activityMetadata st' !! Track.id track = Some trackMeta
    ∧ TrackMeta.id trackMeta = Track.id track
    ∧ TrackMeta.type trackMeta = Track.type track
    ∧ filteredOut (activityMetadata st') (activeActivityFilters st')
        (Some (Track.id track))
      = negb (filterActive (activeActivityFilters st') (Track.type track)).
Proof.
  intros st' Hnd. subst st'.
  destruct (loadActivities_frame request requests st) as (-> & _).
  rewrite loadActivities_tracks.
  intros (track0 & -> & Hin)%list_elem_of_fmap.
  rewrite calculateTrackOverlaps_id, calculateTrackOverlaps_type.
  apply elem_of_tracksFrom in Hin as (i & entry & Hi & Hlen & ->).
  exists (metadataOf (StreamData.activityInfo entry)).
  assert (metadataOfStreams (resolvedStreamsOf (request :: requests)) ∅
            !! ActivityInfo.id (StreamData.activityInfo entry)
          = Some (metadataOf (StreamData.activityInfo entry))) as Hmeta
    by (by apply (metadataOfStreams_lookup _ _ i)).
  split_and!; try done.
  unfold filteredOut. cbn [mbind option_bind trackForOverlap Track.id].
  by rewrite Hmeta.
Qed.

Lemma loaded_tracks_have_their_metadata_witness :
  ∃ trackMeta,
    activityMetadata
      (loadActivities sampleRunActivities (initialAppState 800 600))
      !! 101%Z = Some trackMeta
    ∧ TrackMeta.id trackMeta = 101%Z
    ∧ TrackMeta.type trackMeta = "run".
Proof.
  destruct (loaded_tracks_have_their_metadata
              (sampleActivity 101 "Run",
               ResponseJson (Some [(45, 7); (45.0001, 7.0002)]) None None) []
              (initialAppState 800 600)
              (calculateTrackOverlaps
                 (gridOfTracks (loadedTracks sampleRunActivities) ∅)
                 (trackForOverlap sampleRunStream 0)))
    as (trackMeta & Hmeta & Hid & Htype & _).
  - simpl. apply NoDup_singleton.
  - change (Some [(sampleActivity 101 "Run",
                   ResponseJson (Some [(45, 7); (45.0001, 7.0002)]) None None)])
      with sampleRunActivities.
    rewrite loadActivities_tracks. apply list_elem_of_here.
  - exists trackMeta. rewrite calculateTrackOverlaps_id in Hmeta, Hid.
    rewrite calculateTrackOverlaps_type in Htype. done.
Defined.

(** X23: a load whose activity list cannot be fetched or is empty clears
    the dataset but touches neither the render buffer nor the view: the
    canvas keeps drawing the previous segments, and since their metadata
    is gone no click shows a popup any more. *)
Theorem failed_load_keeps_stale_buffer activities st
    clickX_screen clickY_screen :
  default [] activities = [] →
  let st' := loadActivities activities st in
  allTracksData st' = []
  ∧ activityMetadata st' = ∅
  ∧ webGLTrackBuffers st' = webGLTrackBuffers st
  ∧ viewState st' = viewState st
  ∧ ∀ trackInfo,
      handleCanvasClickForPopup clickX_screen clickY_screen st'
      ≠ ShowPopup trackInfo.
Proof.
  intros Hempty st'.
  assert (st' = clearDataset st) as ->
    by (subst st'; by destruct activities as [[|? ?]|]).
  split_and!; try done.
  intros trackInfo. unfold handleCanvasClickForPopup.
  destruct (isPanning _); [done |]. destruct (_ =? _)%nat; [done |].
  destruct (BestMatch.trackId _) as [tid|]; [| done].
  destruct (tid =? 0)%Z; [done |].
  cbn [clearDataset activityMetadata set_activeActivityFilters
       set_pointPresenceGrid set_activityTypes set_activityMetadata].
  by rewrite lookup_empty.
Qed.

Lemma failed_load_keeps_stale_buffer_witness :
  webGLTrackBuffers (loadActivities None pickSampleState)
  = webGLTrackBuffers pickSampleState
  ∧ ∀ trackInfo,
      handleCanvasClickForPopup 405 297.5 (loadActivities None pickSampleState)
      ≠ ShowPopup trackInfo.
Proof.
  destruct (failed_load_keeps_stale_buffer None pickSampleState 405 297.5)
    as (_ & _ & Hbuf & _ & Hclick); [reflexivity |].
  by split.
Defined.

(** X24: right after a load of a non-empty activity list every type is
    ticked, so the render buffer holds every segment of every track, in
    track order. *)
Theorem load_shows_every_segment request requests st :
  let st' := loadActivities (Some (request :: requests)) st in
  webGLTrackBuffers st'
  = buffersOfSegments
      (flat_map (λ track, map (pair track) (Track.segmentsWithOverlap track))
         (allTracksData st')).
Proof.
  intros st'. subst st'.
  destruct (loadActivities_frame request requests st) as (_ & _ & _ & ->).
  rewrite buildBuffers_visibleSegments.
  by rewrite loadActivities_all_visible.
Qed.

(** ** The distance to a segment, beyond totality *)

Lemma sum_squares_nonneg u v : 0 <= u ^ 2 + v ^ 2.
Proof. pose proof (pow2_ge_0 u). pose proof (pow2_ge_0 v). lra. Qed.

Lemma sqrt_sum_squares_zero u v : sqrt (u ^ 2 + v ^ 2) = 0 → u = 0 ∧ v = 0.
Proof.
  intros Hs. apply squares_zero, sqrt_eq_0; [apply sum_squares_nonneg | done].
Qed.

(** X25: in exact arithmetic the formula of [distancePointToSegment]
    vanishes exactly on the segment, that is at the points
    [a + t * (b - a)] with [0 <= t <= 1].  (In the doubles of the code
    rounding and underflow can break both directions.) *)
Theorem distance_zero_iff_on_segment p a b :
  distancePointToSegment p a b = Some 0
  ↔ ∃ t, 0 <= t <= 1
       ∧ Point.x p = Point.x a + t * (Point.x b - Point.x a)
       ∧ Point.y p = Point.y a + t * (Point.y b - Point.y a).
Proof.
  destruct p as [px py], a as [ax ay], b as [bx by'].
  unfold distancePointToSegment, checkedDiv. cbn [Point.x Point.y].
  destruct (Req_dec_T _ 0) as [Hz | Hnz].
  - apply squares_zero in Hz as [Hx Hy]. split.
    + intros [= Hd]. apply sqrt_sum_squares_zero in Hd as [Hpx Hpy].
      exists 0. split; [lra |]. split; lra.
    + intros (t & _ & Hpx & Hpy). f_equal. rewrite <- sqrt_0. f_equal.
      rewrite Hpx, Hpy. nra.
  - cbn [mbind option_bind].
    set (l2 := (ax - bx) ^ 2 + (ay - by') ^ 2) in *.
    set (t0 := ((px - ax) * (bx - ax) + (py - ay) * (by' - ay)) / l2).
    split.
    + intros [= Hd]. apply sqrt_sum_squares_zero in Hd as [Hpx Hpy].
      exists (Rmax 0 (Rmin 1 t0)).
      split; [minmax_lra |]. split; lra.
    + intros (t & Ht & Hpx & Hpy).
      assert (t0 = t) as ->.
      { subst t0. rewrite Hpx, Hpy.
        replace ((ax + t * (bx - ax) - ax) * (bx - ax)
                 + (ay + t * (by' - ay) - ay) * (by' - ay))
          with (t * l2) by (subst l2; ring).
        field. done. }
      rewrite clamp01_id by done.
      f_equal. rewrite <- sqrt_0. f_equal. rewrite Hpx, Hpy. ring.
Qed.

(** X26: in exact arithmetic the formula of [distancePointToSegment] gives
    the same value for both orders of the end points.  (In the doubles of
    the code the two orders can differ in the last digits.) *)
Theorem distance_symmetric_in_end_points p a b :
  distancePointToSegment p a b = distancePointToSegment p b a.
Proof.
  destruct p as [px py], a as [ax ay], b as [bx by'].
  unfold distancePointToSegment, checkedDiv. cbn [Point.x Point.y].
  destruct (Req_dec_T ((ax - bx) ^ 2 + (ay - by') ^ 2) 0) as [Hz | Hnz];
    destruct (Req_dec_T ((bx - ax) ^ 2 + (by' - ay) ^ 2) 0) as [Hz' | Hnz'].
  - apply squares_zero in Hz as [Hx Hy]. f_equal. f_equal.
    replace bx with ax by lra. replace by' with ay by lra. done.
  - exfalso. apply Hnz'. rewrite <- Hz. ring.
  - exfalso. apply Hnz. rewrite <- Hz'. ring.
  - cbn [mbind option_bind].
    set (t0 := ((px - ax) * (bx - ax) + (py - ay) * (by' - ay))
               / ((ax - bx) ^ 2 + (ay - by') ^ 2)).
    replace (((px - bx) * (ax - bx) + (py - by') * (ay - by'))
             / ((bx - ax) ^ 2 + (by' - ay) ^ 2))
      with (1 - t0) by (subst t0; field; try split; done).
    assert (Rmax 0 (Rmin 1 (1 - t0)) = 1 - Rmax 0 (Rmin 1 t0)) as ->
      by minmax_lra.
    f_equal. f_equal. ring.
Qed.

Lemma clamped_parameter_is_nearest l2 t0 t :
  0 < l2 → 0 <= t <= 1 →
  let tc := Rmax 0 (Rmin 1 t0) in
  tc ^ 2 * l2 - 2 * tc * (t0 * l2) <= t ^ 2 * l2 - 2 * t * (t0 * l2).
Proof.
  intros Hl2 Ht tc.
  assert (t ^ 2 * l2 - 2 * t * (t0 * l2) - (tc ^ 2 * l2 - 2 * tc * (t0 * l2))
          = l2 * ((t - tc) * (t + tc - 2 * t0))) as Hdiff by ring.
  assert (0 <= (t - tc) * (t + tc - 2 * t0)) as Hprod.
  { subst tc. unfold Rmin, Rmax. repeat (destruct (Rle_dec _ _)).
    all: try (replace ((t - t0) * (t + t0 - 2 * t0)) with ((t - t0) ^ 2)
                by ring; apply pow2_ge_0).
    all: try (apply Rmult_le_pos; lra).
    all: try (replace ((t - 1) * (t + 1 - 2 * t0))
                with ((1 - t) * (2 * t0 - 1 - t)) by ring;
              apply Rmult_le_pos; lra).
    all: try lra. }
  pose proof (Rmult_le_pos _ _ (Rlt_le _ _ Hl2) Hprod). lra.
Qed.

(** No point of the segment is nearer than the value returned. *)
Lemma distancePointToSegment_lower_bound p a b t dist :
  distancePointToSegment p a b = Some dist →
  0 <= t <= 1 →
  dist <= sqrt ((Point.x p - (Point.x a + t * (Point.x b - Point.x a))) ^ 2
                + (Point.y p - (Point.y a + t * (Point.y b - Point.y a))) ^ 2).
Proof.
  destruct p as [px py], a as [ax ay], b as [bx by'].
  unfold distancePointToSegment, checkedDiv. cbn [Point.x Point.y].
  destruct (Req_dec_T _ 0) as [Hz | Hnz].
  - apply squares_zero in Hz as [Hx Hy]. intros [= <-] Ht.
    apply sqrt_le_1_alt.
    replace (bx - ax) with 0 by lra. replace (by' - ay) with 0 by lra.
    rewrite !Rmult_0_r, !Rplus_0_r. lra.
  - intros Hd Ht. apply (inj Some) in Hd. subst dist.
    set (l2 := (ax - bx) ^ 2 + (ay - by') ^ 2) in *.
    set (dot := (px - ax) * (bx - ax) + (py - ay) * (by' - ay)).
    set (t0 := dot / l2).
    assert (0 < l2) as Hl2
      by (pose proof (sum_squares_nonneg (ax - bx) (ay - by')); fold l2 in H;
          lra).
    assert (t0 * l2 = dot) as Hdot by (subst t0; field; lra).
    pose proof (clamped_parameter_is_nearest l2 t0 t Hl2 Ht) as Hnear.
    cbv zeta in Hnear. rewrite Hdot in Hnear.
    set (tc := Rmax 0 (Rmin 1 t0)) in *.
    apply sqrt_le_1_alt.
    assert (∀ u,
              (px - (ax + u * (bx - ax))) ^ 2 + (py - (ay + u * (by' - ay))) ^ 2
              = (px - ax) ^ 2 + (py - ay) ^ 2 + (u ^ 2 * l2 - 2 * u * dot))
      as Hexpand by (intros u; subst l2 dot; ring).
    rewrite !Hexpand. lra.
Qed.

Lemma clampToUnit_range s : 0 <= clampToUnit s <= 1.
Proof. unfold clampToUnit. repeat (destruct (Rlt_dec _ _)); lra. Qed.

(** X27: in exact arithmetic the value returned is the least distance from
    the point to the points [a + t * (b - a)], [0 <= t <= 1], of the
    segment: it is the distance to one of them, and none is nearer. *)
Theorem distance_is_least_over_segment p a b dist :
  distancePointToSegment p a b = Some dist →
  (∃ t, 0 <= t <= 1 ∧ dist = euclideanDistance p (pointOnSegment a b t))
  ∧ ∀ t, 0 <= t <= 1 → dist <= euclideanDistance p (pointOnSegment a b t).
Proof.
  intros Hdist. split.
  - apply distancePointToSegment_clampedProjection in Hdist as (s & _ & ->).
    exists (clampToUnit s). split; [apply clampToUnit_range | done].
  - intros t Ht. by apply distancePointToSegment_lower_bound.
Qed.

(** The point (5, 3) is at distance 3 from the segment from (0, 0) to
    (10, 0): the distance to its point at [t = 1 / 2], and at most the
    distance to any other of its points. *)
Lemma distance_is_least_over_segment_witness :
  (∃ t, 0 <= t <= 1
     ∧ 3 = euclideanDistance (Point.mk 5 3)
             (pointOnSegment (Point.mk 0 0) (Point.mk 10 0) t))
  ∧ ∀ t, 0 <= t <= 1 →
      3 <= euclideanDistance (Point.mk 5 3)
             (pointOnSegment (Point.mk 0 0) (Point.mk 10 0) t).
Proof.
  apply (distance_is_least_over_segment (Point.mk 5 3) (Point.mk 0 0)
           (Point.mk 10 0) 3).
  apply distancePointToSegment_level; [lra | lra |].
  unfold Rabs. destruct (Rcase_abs _); lra.
Defined.

(** ** The pop-up *)

(** X28: a pop-up that fits in the window is placed inside it: when the
    pointer is not beyond the right and bottom edges and the pop-up is no
    larger than the window, its box lies within the window. *)
Theorem popup_stays_in_window mouseX mouseY width height innerWidth innerHeight :
  mouseX <= innerWidth → mouseY <= innerHeight →
  width <= innerWidth → height <= innerHeight →
  let pos := popupPosition mouseX mouseY width height innerWidth innerHeight in
  0 <= pos.1 ∧ pos.1 + width <= innerWidth ∧
  0 <= pos.2 ∧ pos.2 + height <= innerHeight.
Proof.
  intros Hx Hy Hw Hh. unfold popupPosition. cbn [fst snd].
  repeat (destruct (Rgt_dec _ _)); unfold Rgt in *; minmax_lra.
Qed.

Lemma popup_stays_in_window_witness :
  let pos := popupPosition 790 20 200 120 800 600 in
  0 <= pos.1 ∧ pos.1 + 200 <= 800 ∧ 0 <= pos.2 ∧ pos.2 + 120 <= 600.
Proof. apply (popup_stays_in_window 790 20 200 120 800 600); lra. Defined.

Lemma Zfloor_div_pos x (k : Z) :
  (0 < k)%Z → Zfloor (x / IZR k) = (Zfloor x / k)%Z.
Proof.
  intros Hk. apply Zfloor_eq.
  pose proof (Zfloor_bound x) as Hx.
  pose proof (Z.div_mod (Zfloor x) k ltac:(lia)) as Hdm.
  pose proof (Z.mod_pos_bound (Zfloor x) k Hk) as Hr.
  set (n := Zfloor x) in *. set (q := (n / k)%Z) in *.
  set (r := (n mod k)%Z) in *.
  assert (IZR n = IZR k * IZR q + IZR r) as Hn
    by (rewrite Hdm, plus_IZR, mult_IZR; done).
  assert (0 < IZR k) as HkR by (apply (IZR_lt 0); done).
  assert (0 <= IZR r) as Hr0 by (apply (IZR_le 0); lia).
  assert (IZR r + 1 <= IZR k) as Hr1
    by (rewrite <- (plus_IZR r 1); apply IZR_le; lia).
  assert (x = x / IZR k * IZR k) as Hy by (field; lra).
  set (y := x / IZR k) in *. nra.
Qed.

Lemma jsRem_nonneg x (k : Z) :
  0 <= x → (0 < k)%Z → jsRem x (IZR k) = x - IZR (k * (Zfloor x / k)).
Proof.
  intros Hx Hk. unfold jsRem, jsTrunc.
  assert (0 < IZR k) as HkR by (apply (IZR_lt 0); done).
  destruct (Rle_dec 0 (x / IZR k)) as [_ | Hneg].
  - by rewrite Zfloor_div_pos, mult_IZR.
  - destruct Hneg. apply Rmult_le_pos; [done |].
    apply Rlt_le, Rinv_0_lt_compat, HkR.
Qed.

Lemma Zfloor_subz x (z : Z) : Zfloor (x - IZR z) = (Zfloor x - z)%Z.
Proof.
  replace (x - IZR z) with (x + IZR (- z)) by (rewrite opp_IZR; ring).
  rewrite Zfloor_addz. lia.
Qed.

Lemma duration_parts seconds :
  0 <= seconds →
  durationHours seconds = (Zfloor seconds / 3600)%Z ∧
  durationMinutes seconds = ((Zfloor seconds mod 3600) / 60)%Z ∧
  durationSeconds seconds = (Zfloor seconds mod 60)%Z.
Proof.
  intros Hs. unfold durationHours, durationMinutes, durationSeconds.
  change 3600 with (IZR 3600). change 60 with (IZR 60).
  rewrite !jsRem_nonneg, !Zfloor_div_pos, !Zfloor_subz by (done || lia).
  rewrite !Z.mod_eq by lia. done.
Qed.

(** X29: for a duration of at least 0 seconds, the hours, minutes and
    seconds that [formatDuration] prints add up to the whole seconds of the
    duration, with minutes and seconds below 60. *)
Theorem duration_parts_add_up seconds :
  0 <= seconds →
  (3600 * durationHours seconds + 60 * durationMinutes seconds
   + durationSeconds seconds = Zfloor seconds)%Z ∧
  (0 <= durationHours seconds)%Z ∧
  (0 <= durationMinutes seconds < 60)%Z ∧
  (0 <= durationSeconds seconds < 60)%Z.
Proof.
  intros Hs. destruct (duration_parts seconds Hs) as (-> & -> & ->).
  assert (0 <= Zfloor seconds)%Z as Hn by (apply Zfloor_lub; done).
  Z.div_mod_to_equations. lia.
Qed.

Lemma duration_parts_add_up_witness :
  (3600 * durationHours 3725.5 + 60 * durationMinutes 3725.5
   + durationSeconds 3725.5 = Zfloor 3725.5)%Z ∧
  (0 <= durationHours 3725.5)%Z ∧
  (0 <= durationMinutes 3725.5 < 60)%Z ∧
  (0 <= durationSeconds 3725.5 < 60)%Z.
Proof. apply (duration_parts_add_up 3725.5); lra. Defined.


Lemma pretty_N_char_isDigit x : isDigit (pretty_N_char x) = true.
Proof. unfold pretty_N_char. by repeat case_match. Qed.

Lemma pretty_N_go_onlyDigits x s :
  onlyDigits s → onlyDigits (pretty_N_go x s).
Proof.
  revert s. induction (N.lt_wf_0 x) as [x _ IH]; intros s Hs.
  assert (x = 0 ∨ 0 < x)%N as [-> | Hpos] by lia.
  - by rewrite pretty_N_go_0.
  - rewrite pretty_N_go_step by done. apply IH.
    + by apply N.div_lt.
    + split; [apply pretty_N_char_isDigit | done].
Qed.

Lemma pretty_N_onlyDigits (x : N) : onlyDigits (pretty x).
Proof.
  unfold pretty, pretty_N. case_decide.
  - by split.
  - by apply pretty_N_go_onlyDigits.
Qed.

Lemma pretty_Z_onlyDigits (z : Z) : (0 <= z)%Z → onlyDigits (pretty z).
Proof.
  intros Hz. destruct z as [|q|q]; unfold pretty, pretty_Z.
  - by split.
  - apply pretty_N_onlyDigits.
  - lia.
Qed.

Lemma append_assoc_r (a b c : string) : (a +:+ b) +:+ c = a +:+ (b +:+ c).
Proof.
  induction a as [|x a IH]; rewrite ?append_nil, ?append_cons; [done |].
  by rewrite IH.
Qed.

Lemma digits_prefix_inj d1 d2 t1 t2 :
  onlyDigits d1 → onlyDigits d2 → startsNonDigit t1 → startsNonDigit t2 →
  d1 +:+ t1 = d2 +:+ t2 → d1 = d2 ∧ t1 = t2.
Proof.
  revert d2. induction d1 as [|c d1 IH]; intros [|d d2] H1 H2 Ht1 Ht2;
    rewrite ?append_cons, ?append_nil.
  - done.
  - intros ->. destruct H2 as [Hd _]. simpl in Ht1. congruence.
  - intros <-. destruct H1 as [Hd _]. simpl in Ht2. congruence.
  - intros [= -> Heq]. destruct H1 as [_ H1], H2 as [_ H2].
    by destruct (IH d2 H1 H2 Ht1 Ht2 Heq) as [-> ->].
Qed.

Lemma trimStart_digits d t :
  onlyDigits d → trimStart t = t → trimStart (d +:+ t) = d +:+ t.
Proof.
  destruct d as [|c d]; rewrite ?append_nil, ?append_cons; [done |].
  intros [Hc _] _. cbn [trimStart].
  by destruct c as [[] [] [] [] [] [] [] []].
Qed.

Lemma trimEnd_append s t :
  t ≠ EmptyString → trimEnd t = t → trimEnd (s +:+ t) = s +:+ t.
Proof.
  intros Hne Ht. induction s as [|c s IH]; rewrite ?append_nil, ?append_cons;
    [done |].
  cbn [trimEnd]. rewrite IH.
  destruct (s +:+ t) eqn:Hst; [| done].
  destruct s; rewrite ?append_nil, ?append_cons in Hst; done.
Qed.

Lemma formatDuration_shape seconds :
  0 <= seconds →
  formatDuration seconds =
    if (0 <? durationHours seconds)%Z then
      pretty (durationHours seconds) +:+ "h "
        +:+ pretty (durationMinutes seconds) +:+ "m "
        +:+ pretty (durationSeconds seconds) +:+ "s"
    else if (0 <? durationMinutes seconds)%Z then
      pretty (durationMinutes seconds) +:+ "m "
        +:+ pretty (durationSeconds seconds) +:+ "s"
    else pretty (durationSeconds seconds) +:+ "s".
Proof.
  intros Hs.
  destruct (duration_parts seconds Hs) as (Hh & Hm & Hsec).
  assert (0 <= Zfloor seconds)%Z as Hn by (apply Zfloor_lub; done).
  assert (0 <= durationHours seconds)%Z as Hh0
    by (rewrite Hh; Z.div_mod_to_equations; lia).
  assert (0 <= durationMinutes seconds)%Z as Hm0
    by (rewrite Hm; Z.div_mod_to_equations; lia).
  assert (0 <= durationSeconds seconds)%Z as Hs0
    by (rewrite Hsec; Z.div_mod_to_equations; lia).
  apply pretty_Z_onlyDigits in Hh0, Hm0, Hs0.
  unfold formatDuration, trim. cbv zeta.
  set (h := durationHours seconds) in *.
  set (m := durationMinutes seconds) in *.
  set (s := durationSeconds seconds) in *.
  assert (trimEnd (pretty s +:+ "s") = pretty s +:+ "s") as Hend_s
    by (by apply trimEnd_append).
  assert (pretty s +:+ "s" ≠ EmptyString) as Hne_s
    by (destruct (pretty s); rewrite ?append_nil, ?append_cons; done).
  assert (trimEnd (pretty m +:+ "m " +:+ pretty s +:+ "s")
          = pretty m +:+ "m " +:+ pretty s +:+ "s") as Hend_m.
  { apply trimEnd_append; [by rewrite !append_cons |].
    by apply trimEnd_append. }
  assert (pretty m +:+ "m " +:+ pretty s +:+ "s" ≠ EmptyString) as Hne_m
    by (destruct (pretty m); rewrite ?append_nil, ?append_cons; done).
  destruct (0 <? h)%Z; rewrite ?orb_true_r, ?orb_false_r;
    [| destruct (0 <? m)%Z]; rewrite ?append_nil, ?append_assoc_r.
  - rewrite trimStart_digits; [| done | by rewrite !append_cons].
    apply trimEnd_append; [by rewrite !append_cons |].
    by apply trimEnd_append.
  - by rewrite trimStart_digits; [| done | by rewrite ?append_cons].
  - by rewrite trimStart_digits; [| done | by rewrite ?append_cons].
Qed.

(** X30: [formatDuration] tells durations apart down to the second: two
    durations of at least 0 seconds that are printed alike have the same
    number of whole seconds. *)
Theorem formatDuration_determines_whole_seconds a b :
  0 <= a → 0 <= b →
  formatDuration a = formatDuration b → Zfloor a = Zfloor b.
Proof.
  intros Ha Hb.
  rewrite !formatDuration_shape by done.
  destruct (duration_parts a Ha) as (Hha & Hma & Hsa).
  destruct (duration_parts b Hb) as (Hhb & Hmb & Hsb).
  assert (0 <= Zfloor a)%Z as Hna by (apply Zfloor_lub; done).
  assert (0 <= Zfloor b)%Z as Hnb by (apply Zfloor_lub; done).
  assert (0 <= durationHours a ∧ 0 <= durationMinutes a
          ∧ 0 <= durationSeconds a)%Z as (Hh0a & Hm0a & Hs0a)
    by (rewrite Hha, Hma, Hsa; Z.div_mod_to_equations; lia).
  assert (0 <= durationHours b ∧ 0 <= durationMinutes b
          ∧ 0 <= durationSeconds b)%Z as (Hh0b & Hm0b & Hs0b)
    by (rewrite Hhb, Hmb, Hsb; Z.div_mod_to_equations; lia).
  pose proof (pretty_Z_onlyDigits _ Hh0a) as Dha.
  pose proof (pretty_Z_onlyDigits _ Hm0a) as Dma.
  pose proof (pretty_Z_onlyDigits _ Hs0a) as Dsa.
  pose proof (pretty_Z_onlyDigits _ Hh0b) as Dhb.
  pose proof (pretty_Z_onlyDigits _ Hm0b) as Dmb.
  pose proof (pretty_Z_onlyDigits _ Hs0b) as Dsb.
  assert (∀ h m s h' m' s' : Z,
            (h = Zfloor a / 3600 → m = (Zfloor a mod 3600) / 60 →
             s = Zfloor a mod 60 →
             h' = Zfloor b / 3600 → m' = (Zfloor b mod 3600) / 60 →
             s' = Zfloor b mod 60 →
             h = h' → m = m' → s = s' → Zfloor a = Zfloor b)%Z) as Hsame
    by (intros; Z.div_mod_to_equations; lia).
  specialize (Hsame _ _ _ _ _ _ Hha Hma Hsa Hhb Hmb Hsb).
  destruct (Z.ltb_spec 0 (durationHours a)) as [Hposa | Hzera];
    destruct (Z.ltb_spec 0 (durationHours b)) as [Hposb | Hzerb];
    [| | | destruct (Z.ltb_spec 0 (durationMinutes a)) as [Hmposa | Hmzera];
           destruct (Z.ltb_spec 0 (durationMinutes b)) as [Hmposb | Hmzerb]];
    try destruct (Z.ltb_spec 0 (durationMinutes a)) as [Hmposa | Hmzera];
    try destruct (Z.ltb_spec 0 (durationMinutes b)) as [Hmposb | Hmzerb];
    intros Heq.
  all: apply digits_prefix_inj in Heq as [Heq1 Heq2];
    [| done | done | by rewrite ?append_cons | by rewrite ?append_cons].
  all: rewrite ?append_cons, ?append_nil in Heq2; try discriminate Heq2.
  all: try (injection Heq2 as Heq2;
            apply digits_prefix_inj in Heq2 as [Heq2 Heq3];
            [| done | done | by rewrite ?append_cons | by rewrite ?append_cons];
            rewrite ?append_cons, ?append_nil in Heq3;
            try discriminate Heq3).
  all: try (injection Heq3 as Heq3;
            apply digits_prefix_inj in Heq3 as [Heq3 _];
            [| done | done | by rewrite ?append_cons | by rewrite ?append_cons]).
  all: repeat match goal with
         | H : pretty _ = pretty _ |- _ => apply (inj pretty) in H
         end.
  all: apply Hsame; lia.
Qed.

Lemma formatDuration_determines_whole_seconds_witness :
  Zfloor 3725.5 = Zfloor 3725.
Proof.
  apply (formatDuration_determines_whole_seconds 3725.5 3725); [lra | lra |].
  rewrite !formatDuration_shape by lra.
  destruct (duration_parts 3725.5 ltac:(lra)) as (-> & -> & ->).
  destruct (duration_parts 3725 ltac:(lra)) as (-> & -> & ->).
  replace (Zfloor 3725.5) with 3725%Z by (symmetry; apply Zfloor_eq; lra).
  replace (Zfloor 3725) with 3725%Z by (symmetry; apply Zfloor_eq; lra).
  reflexivity.
Defined.
